(** * Resume keyword matcher: a shallow embedding of [app.py]

    The analysis core of the application (text cleaning, keyword
    extraction, categorisation, synonym lookup, match scoring and
    suggestion generation) is transcribed function by function.

    Conventions of the embedding.
    - A Python [str] is a [string]; the text is taken to be ASCII (code
      points below 128), so [str.lower], [str.split] and the regular
      expression classes are the ASCII ones.
    - A Python [dict] with a fixed set of keys is a record; a [dict] whose
      iteration order matters is an association list; a [set] is a [gset].
    - A Python exception is [None] in an [option] result.
    - The match percentage, a Python [float], is an exact rational in [Q]
      (the weight [0.7] is [7/10]).  The same expression in binary64 is
      [weighted_score_binary64]; it is evaluated for the keyword counts
      the extractor can produce. *)

From Stdlib Require Import PrimFloat.
From Stdlib Require Uint63.
From Stdlib Require Import Ascii String List QArith Lqa Lia Sorted.
From stdpp Require Import base list strings gmap sets sorting.

Local Open Scope N_scope.

(** ** Characters and strings *)

Module Text.

Definition code (c : ascii) : N := N_of_ascii c.

Definition in_range (lo hi : N) (c : ascii) : bool :=
  (lo <=? code c) && (code c <=? hi).

Definition is_upper (c : ascii) : bool := in_range 65 90 c.
Definition is_lower (c : ascii) : bool := in_range 97 122 c.
Definition is_alpha (c : ascii) : bool := is_upper c || is_lower c.
Definition is_digit (c : ascii) : bool := in_range 48 57 c.

(** [\w] of the [re] module, on ASCII. *)
Definition is_word (c : ascii) : bool :=
  is_alpha c || is_digit c || (code c =? 95).

(** [str.isspace] on ASCII: tab, line feed, vertical tab, form feed,
    carriage return, the four separators 0x1c..0x1f and the space. *)
Definition is_space (c : ascii) : bool :=
  in_range 9 13 c || in_range 28 32 c.

Definition char_lower (c : ascii) : ascii :=
  if is_upper c then ascii_of_N (code c + 32) else c.

(** [str.lower] *)
Fixpoint lower (s : string) : string :=
  match s with
  | EmptyString => EmptyString
  | String c s' => String (char_lower c) (lower s')
  end.

Definition is_empty (s : string) : bool :=
  match s with EmptyString => true | _ => false end.

Definition flush (cur : string) : list string :=
  if is_empty cur then [] else [cur].

(** [str.split()] without arguments: the maximal runs of characters that
    are not white space. *)
Fixpoint split_go (cur : string) (s : string) : list string :=
  match s with
  | EmptyString => flush cur
  | String c s' =>
      if is_space c then flush cur ++ split_go EmptyString s'
      else split_go (cur +:+ String c EmptyString) s'
  end.

Definition split (s : string) : list string := split_go EmptyString s.

(** [sep.join(l)] *)
Fixpoint join (sep : string) (l : list string) : string :=
  match l with
  | [] => EmptyString
  | [w] => w
  | w :: ws => w +:+ sep +:+ join sep ws
  end.

(** [str.replace(a, b)] for single characters [a] and [b]. *)
Fixpoint replace_char (a b : ascii) (s : string) : string :=
  match s with
  | EmptyString => EmptyString
  | String c s' =>
      String (if Ascii.eqb c a then b else c) (replace_char a b s')
  end.

(** [sub in s] on strings: [sub] occurs in [s] as a contiguous block. *)
Fixpoint str_in (sub s : string) : bool :=
  String.prefix sub s ||
  match s with
  | EmptyString => false
  | String _ s' => str_in sub s'
  end.

Fixpoint chars (s : string) : list ascii :=
  match s with
  | EmptyString => []
  | String c s' => c :: chars s'
  end.

End Text.

Import Text.

(** [clean_text]: lower-case, then collapse white space. *)
Definition clean_text (text : string) : string :=
  join " " (split (lower text)).

(** ** Records *)

(** One entry of the list returned by [extract_keywords]. *)
Record kw_info : Type := KwInfo {
  keyword : string;
  category : string;
  synonyms : list string;
  count : nat
}.

(** An entry of [found_keywords]; the key ['matched_synonym'] exists only
    in the entries of a synonym match. *)
Record found_kw : Type := FoundKw {
  f_keyword : string;
  f_category : string;
  f_match_type : string;
  f_matched_synonym : option string;
  f_synonyms : list string
}.

(** An entry of [missing_keywords]. *)
Record missing_kw : Type := MissingKw {
  m_keyword : string;
  m_category : string;
  m_synonyms : list string
}.

(** The dictionary returned by [calculate_match]. *)
Record match_result : Type := MatchResult {
  match_percentage : Q;
  found_keywords : list found_kw;
  missing_keywords : list missing_kw;
  total_keywords : nat;
  exact_matches : nat;
  synonym_matches : nat
}.

(** ** [calculate_match] *)

(** The four local variables the loop updates. *)
Record match_state : Type := MatchState {
  st_found : list found_kw;
  st_missing : list missing_kw;
  st_exact : nat;
  st_synonym : nat
}.

Definition init_state : match_state := MatchState [] [] 0%nat 0%nat.

(** [any(synonym in resume_clean for synonym in synonyms)] *)
Definition any_synonym (resume_clean : string) (syns : list string) : bool :=
  existsb (fun synonym => str_in synonym resume_clean) syns.

(** [next(synonym for synonym in synonyms if synonym in resume_clean)];
    [None] stands for [StopIteration]. *)
Definition next_synonym (resume_clean : string) (syns : list string)
  : option string :=
  List.find (fun synonym => str_in synonym resume_clean) syns.

(** The body of the [for kw_info in job_keywords] loop. *)
Definition match_step (resume_clean : string) (st : match_state)
    (kw : kw_info) : option match_state :=
  if str_in (keyword kw) resume_clean then
    Some (MatchState
            (st_found st ++
               [FoundKw (keyword kw) (category kw) "exact" None (synonyms kw)])
            (st_missing st) (S (st_exact st)) (st_synonym st))
  else if any_synonym resume_clean (synonyms kw) then
    match next_synonym resume_clean (synonyms kw) with
    | Some matching_synonym =>
        Some (MatchState
                (st_found st ++
                   [FoundKw (keyword kw) (category kw) "synonym"
                      (Some matching_synonym) (synonyms kw)])
                (st_missing st) (st_exact st) (S (st_synonym st)))
    | None => None
    end
  else
    Some (MatchState
            (st_found st)
            (st_missing st ++
               [MissingKw (keyword kw) (category kw) (synonyms kw)])
            (st_exact st) (st_synonym st)).

Fixpoint match_loop (resume_clean : string) (st : match_state)
    (kws : list kw_info) : option match_state :=
  match kws with
  | [] => Some st
  | kw :: rest =>
      match match_step resume_clean st kw with
      | Some st' => match_loop resume_clean st' rest
      | None => None
      end
  end.

Definition nat_to_Q (n : nat) : Q := inject_Z (Z.of_nat n).

(** [(exact_matches * 1.0 + synonym_matches * 0.7) / total_keywords * 100] *)
Definition weighted_score (exact syn total : nat) : Q :=
  ((nat_to_Q exact * 1 + nat_to_Q syn * (7 # 10)) / nat_to_Q total * 100)%Q.

(** The expression as Python evaluates it, in binary64: the counts are
    converted exactly (they are far below 2^53) and every operation rounds
    to nearest. *)
Definition nat_to_float (n : nat) : float :=
  of_uint63 (Uint63.of_Z (Z.of_nat n)).

Definition weighted_score_binary64 (exact syn total : nat) : float :=
  ((nat_to_float exact * 1.0 + nat_to_float syn * 0x1.6666666666666p-1)
   / nat_to_float total * 100)%float.

Definition percentage_in_range (x : float) : bool :=
  PrimFloat.leb 0 x && PrimFloat.leb x 100.

(** All counts with [exact + syn <= total] and [1 <= total <= n]. *)
Definition binary64_scores_in_range (n : nat) : bool :=
  forallb (fun total =>
    forallb (fun exact =>
      forallb (fun syn =>
                 percentage_in_range (weighted_score_binary64 exact syn total))
              (seq 0 (S total - exact)))
            (seq 0 (S total)))
          (seq 1 n).

Definition calculate_match (resume_text : string) (job_keywords : list kw_info)
  : option match_result :=
  let resume_clean := clean_text resume_text in
  match match_loop resume_clean init_state job_keywords with
  | Some st =>
      let total := length job_keywords in
      let pct :=
        if (0 <? total)%nat
        then weighted_score (st_exact st) (st_synonym st) total
        else 0%Q in
      Some (MatchResult pct (st_found st) (st_missing st) total
              (st_exact st) (st_synonym st))
  | None => None
  end.

(** ** A small regular-expression engine

    The program uses [re.match] with [re.IGNORECASE] in
    [categorize_keyword] and [re.findall] in [extract_keywords].  Its
    patterns are flat sequences of atoms (a literal, [.], a character
    class), each with an optional quantifier ([*], [+], [?], [{n,}]), and
    the assertions [^], [$] and [\b].  The patterns are kept as the strings
    of the source and compiled by [compile]. *)

Module Re.

Inductive atom : Type :=
| Lit (c : ascii)
| Dot
| Class (ranges : list (ascii * ascii)).

Inductive item : Type :=
| Bol
| Eol
| WordB
| One (a : atom)
| Opt (a : atom)
| AtLeast (n : nat) (a : atom).

Inductive quant : Type := QOpt | QMin (n : nat).

Inductive token : Type :=
| TBol
| TEol
| TWordB
| TAtom (a : atom)
| TQuant (q : quant).

Definition digit_value (d : ascii) : nat := N.to_nat (code d - 48).

(** [cls] is [Some acc] inside a bracketed class, with the ranges read so
    far.  [None] as a result is a pattern outside the fragment. *)
Fixpoint tokenize (cls : option (list (ascii * ascii))) (s : string)
  : option (list token) :=
  match s with
  | EmptyString => match cls with None => Some [] | Some _ => None end
  | String c r =>
      match cls with
      | Some acc =>
          if Ascii.eqb c "]" then cons (TAtom (Class acc)) <$> tokenize None r
          else
            match r with
            | String d (String hi r') =>
                if Ascii.eqb d "-" && negb (Ascii.eqb hi "]")
                then tokenize (Some (acc ++ [(c, hi)])) r'
                else tokenize (Some (acc ++ [(c, c)])) r
            | _ => tokenize (Some (acc ++ [(c, c)])) r
            end
      | None =>
          if Ascii.eqb c "[" then tokenize (Some []) r
          else if Ascii.eqb c "\" then
            match r with
            | String e r' =>
                cons (if Ascii.eqb e "b" then TWordB else TAtom (Lit e))
                  <$> tokenize None r'
            | EmptyString => None
            end
          else if Ascii.eqb c "{" then
            match r with
            | String d (String c1 (String c2 r')) =>
                if is_digit d && Ascii.eqb c1 "," && Ascii.eqb c2 "}"
                then cons (TQuant (QMin (digit_value d))) <$> tokenize None r'
                else None
            | _ => None
            end
          else if Ascii.eqb c "^" then cons TBol <$> tokenize None r
          else if Ascii.eqb c "$" then cons TEol <$> tokenize None r
          else if Ascii.eqb c "." then cons (TAtom Dot) <$> tokenize None r
          else if Ascii.eqb c "*" then cons (TQuant (QMin 0)) <$> tokenize None r
          else if Ascii.eqb c "+" then cons (TQuant (QMin 1)) <$> tokenize None r
          else if Ascii.eqb c "?" then cons (TQuant QOpt) <$> tokenize None r
          else cons (TAtom (Lit c)) <$> tokenize None r
      end
  end.

Definition quantify (q : quant) (a : atom) : item :=
  match q with
  | QOpt => Opt a
  | QMin n => AtLeast n a
  end.

Fixpoint items_of (ts : list token) : option (list item) :=
  match ts with
  | [] => Some []
  | TBol :: r => cons Bol <$> items_of r
  | TEol :: r => cons Eol <$> items_of r
  | TWordB :: r => cons WordB <$> items_of r
  | TAtom a :: TQuant q :: r => cons (quantify q a) <$> items_of r
  | TAtom a :: r => cons (One a) <$> items_of r
  | TQuant _ :: _ => None
  end.

(** [re.compile]; [None] is [re.error] (or a pattern outside the fragment). *)
Definition compile (pattern : string) : option (list item) :=
  match tokenize None pattern with
  | Some ts => items_of ts
  | None => None
  end.

Definition char_upper (c : ascii) : ascii :=
  if is_lower c then ascii_of_N (code c - 32) else c.

Definition in_ranges (rs : list (ascii * ascii)) (c : ascii) : bool :=
  existsb (fun r => in_range (code (fst r)) (code (snd r)) c) rs.

(** Does atom [a] accept the character [c]?  [icase] is [re.IGNORECASE];
    [.] accepts everything but a line feed. *)
Definition atom_matches (icase : bool) (a : atom) (c : ascii) : bool :=
  match a with
  | Lit x =>
      if icase then Ascii.eqb (char_lower c) (char_lower x) else Ascii.eqb c x
  | Dot => negb (code c =? 10)
  | Class rs =>
      in_ranges rs c ||
      (icase && (in_ranges rs (char_lower c) || in_ranges rs (char_upper c)))
  end.

Definition word_before (prev : option ascii) : bool :=
  match prev with Some c => is_word c | None => false end.

Definition word_after (s : string) : bool :=
  match s with String c _ => is_word c | EmptyString => false end.

(** [\b]: exactly one side of the position is a word character. *)
Definition boundary (prev : option ascii) (s : string) : bool :=
  xorb (word_before prev) (word_after s).

(** [$] without [re.MULTILINE]: the end of the string, or just before a
    line feed that ends the string. *)
Definition at_end (s : string) : bool :=
  match s with
  | EmptyString => true
  | String c EmptyString => code c =? 10
  | _ => false
  end.

(** A matcher is given the character before the position ([None] at the
    start of the string) and the rest of the string, and returns the number
    of characters of the first match the backtracking search finds. *)
Definition matcher : Type := option ascii -> string -> option nat.

(** Greedy repetition of at least [n] characters accepted by [m],
    followed by [k]; gives characters back one at a time while [k] fails. *)
Fixpoint rep (m : ascii -> bool) (k : matcher) (n : nat)
    (prev : option ascii) (s : string) : option nat :=
  let stop := match n with O => k prev s | S _ => None end in
  match s with
  | String c s' =>
      if m c then
        match rep m k (pred n) (Some c) s' with
        | Some j => Some (S j)
        | None => stop
        end
      else stop
  | EmptyString => stop
  end.

Fixpoint match_items (icase : bool) (items : list item) : matcher :=
  fun prev s =>
  match items with
  | [] => Some 0%nat
  | Bol :: r =>
      match prev with None => match_items icase r prev s | Some _ => None end
  | Eol :: r => if at_end s then match_items icase r prev s else None
  | WordB :: r => if boundary prev s then match_items icase r prev s else None
  | One a :: r =>
      match s with
      | String c s' =>
          if atom_matches icase a c
          then S <$> match_items icase r (Some c) s'
          else None
      | EmptyString => None
      end
  | Opt a :: r =>
      match s with
      | String c s' =>
          if atom_matches icase a c then
            match match_items icase r (Some c) s' with
            | Some j => Some (S j)
            | None => match_items icase r prev s
            end
          else match_items icase r prev s
      | EmptyString => match_items icase r prev s
      end
  | AtLeast n a :: r =>
      rep (atom_matches icase a) (match_items icase r) n prev s
  end.

(** [re.match(pattern, string, flags)] as a truth value. *)
Definition re_match (pattern : string) (s : string) (icase : bool) : bool :=
  match compile pattern with
  | Some items => bool_decide (is_Some (match_items icase items None s))
  | None => false
  end.

Fixpoint str_take (n : nat) (s : string) : string :=
  match n, s with
  | S n', String c s' => String c (str_take n' s')
  | _, _ => EmptyString
  end.

(** The scan of [re.findall]: try a match at every position from left to
    right; after a match of [k] characters go on behind it ([skip] counts
    the characters of the current match still to pass). *)
Fixpoint findall_from (items : list item) (skip : nat)
    (prev : option ascii) (s : string) : list string :=
  match skip with
  | S n =>
      match s with
      | String c s' => findall_from items n (Some c) s'
      | EmptyString => []
      end
  | O =>
      match match_items false items prev s with
      | Some k =>
          str_take k s ::
          match s with
          | String c s' => findall_from items (pred k) (Some c) s'
          | EmptyString => []
          end
      | None =>
          match s with
          | String c s' => findall_from items 0 (Some c) s'
          | EmptyString => []
          end
      end
  end.

(** [re.findall(pattern, string)] for a pattern without groups. *)
Definition re_findall (pattern : string) (s : string) : list string :=
  match compile pattern with
  | Some items => findall_from items 0 None s
  | None => []
  end.

End Re.

Import Re.

(** ** [categorize_keyword] *)

Definition technical_patterns : list string :=
  [ ".*programming.*"; ".*development.*"; ".*engineering.*"; ".*coding.*";
    ".*algorithm.*"; ".*data.*structure.*"; ".*database.*"; ".*sql.*";
    ".*python.*"; ".*java.*"; ".*javascript.*"; ".*react.*"; ".*node.*";
    ".*machine.learning.*"; ".*ai.*"; ".*cloud.*"; ".*aws.*"; ".*azure.*";
    ".*docker.*"; ".*kubernetes.*"; ".*devops.*"; ".*api.*"; ".*web.*";
    ".*mobile.*"; ".*software.*"; ".*system.*"; ".*network.*"; ".*security.*" ].

Definition tools_patterns : list string :=
  [ "^[a-z]+\+?$"; ".*tool.*"; ".*framework.*"; ".*library.*"; ".*platform.*";
    ".*git.*"; ".*jenkins.*"; ".*jira.*"; ".*excel.*"; ".*tableau.*";
    ".*photoshop.*"; ".*figma.*"; ".*word.*"; ".*powerpoint.*" ].

Definition soft_patterns : list string :=
  [ ".*communication.*"; ".*teamwork.*"; ".*leadership.*"; ".*problem.solving.*";
    ".*critical.thinking.*"; ".*adaptability.*"; ".*creativity.*";
    ".*time.management.*"; ".*collaboration.*"; ".*negotiation.*";
    ".*presentation.*"; ".*analytical.*"; ".*strategic.*"; ".*innovative.*";
    ".*proactive.*"; ".*organized.*" ].

Definition Technical_Skills : string := "Technical Skills".
Definition Tools_Technologies : string := "Tools & Technologies".
Definition Soft_Skills : string := "Soft Skills".
Definition Other_Skills : string := "Other Skills".

(** Each [for pattern in ...: if re.match(...): return ...] loop returns at
    the first pattern that matches. *)
Definition any_match (patterns : list string) (kw : string) : bool :=
  existsb (fun pattern => re_match pattern kw true) patterns.

Definition categorize_keyword (kw : string) : string :=
  if any_match technical_patterns kw then Technical_Skills
  else if any_match tools_patterns kw then Tools_Technologies
  else if any_match soft_patterns kw then Soft_Skills
  else Other_Skills.

(** ** [get_synonyms] *)

(** The lexical database the program reaches through the global [wordnet]:
    [wordnet.synsets(word)] gives the synsets of a word, and for a synset
    the names of [syn.lemmas()] are read one by one.  Either call may
    raise. *)
Class WordNet : Type := {
  synset : Type;
  wn_synsets : string -> option (list synset);
  wn_lemma_names : synset -> option (list string)
}.

(** The class [DummyWordnet] installed when the data cannot be loaded. *)
#[local] Instance DummyWordnet : WordNet := {|
  synset := unit;
  wn_synsets := fun _ => Some [];
  wn_lemma_names := fun _ => Some []
|}.

(** [list(synonyms)] lists a set in an order the language does not fix:
    some arrangement of its elements, each once. *)
Class SetOrder : Type := {
  set_to_list : gset string -> list string;
  set_to_list_perm : forall X : gset string, set_to_list X ≡ₚ elements X
}.

#[local] Instance ElementsOrder : SetOrder := {|
  set_to_list := elements;
  set_to_list_perm := fun X => reflexivity (elements X)
|}.

(** The body of the inner loop: one lemma name. *)
Definition add_lemma (word : string) (syns : gset string) (name : string)
  : gset string :=
  let synonym := replace_char "_" " " name in
  if negb (String.eqb synonym word) && (length (split synonym) =? 1)%nat
  then {[ synonym ]} ∪ syns
  else syns.

Fixpoint collect_synonyms `{WordNet} (word : string) (syns : gset string)
    (synsets : list synset) : option (gset string) :=
  match synsets with
  | [] => Some syns
  | syn :: rest =>
      match wn_lemma_names syn with
      | Some names =>
          collect_synonyms word (fold_left (add_lemma word) names syns) rest
      | None => None
      end
  end.

(** The [try] block. *)
Definition get_synonyms_try `{WordNet} `{SetOrder} (word : string)
  : option (list string) :=
  match wn_synsets word with
  | Some synsets =>
      match collect_synonyms word ∅ synsets with
      | Some syns => Some (take 3 (set_to_list syns))
      | None => None
      end
  | None => None
  end.

(** The bare [except:] turns every exception into the empty list. *)
Definition get_synonyms `{WordNet} `{SetOrder} (word : string) : list string :=
  match get_synonyms_try word with
  | Some l => l
  | None => []
  end.

(** ** [extract_keywords] *)

Definition word_pattern : string := "\b[a-zA-Z]{3,}\b".

Definition stop_words : gset string :=
  list_to_set
  [ "the"; "and"; "for"; "are"; "but"; "not"; "you"; "all"; "can"; "your"; "has"; "had";
    "her"; "his"; "how"; "out"; "see"; "now"; "one"; "may"; "get"; "its"; "who"; "than";
    "been"; "any"; "our"; "from"; "with"; "this"; "that"; "have"; "will"; "would"; "should";
    "could"; "what"; "when"; "where"; "which"; "there"; "their"; "they"; "them"; "these";
    "those"; "then"; "than"; "such"; "some"; "also"; "more"; "most"; "just"; "like"; "only";
    "other"; "about"; "into"; "over"; "under"; "after"; "before"; "between"; "through";
    "during"; "without"; "being"; "both"; "each"; "while"; "until"; "upon"; "within"; "using";
    "based"; "including"; "according"; "following"; "various"; "including"; "provide"; "provided" ].

Definition is_stop_word (word : string) : bool :=
  bool_decide (word ∈ stop_words).

(** A [Counter] keeps its keys in the order of their first insertion:
    an association list in that order. *)
Fixpoint counter_incr (word : string) (c : list (string * nat))
  : list (string * nat) :=
  match c with
  | [] => [(word, 1%nat)]
  | (k, n) :: c' =>
      if String.eqb k word then (k, S n) :: c'
      else (k, n) :: counter_incr word c'
  end.

(** [Counter(words)] *)
Definition Counter (words : list string) : list (string * nat) :=
  fold_left (fun c word => counter_incr word c) words [].

(** [counter[word]]: a missing key counts as 0. *)
Fixpoint counter_get (c : list (string * nat)) (word : string) : nat :=
  match c with
  | [] => 0%nat
  | (k, n) :: c' => if String.eqb k word then n else counter_get c' word
  end.

(** [sorted(items, key=itemgetter(1), reverse=True)]: the sort is stable,
    so an item goes in front of the first item that is not larger. *)
Fixpoint insert_desc (x : string * nat) (l : list (string * nat))
  : list (string * nat) :=
  match l with
  | [] => [x]
  | y :: l' =>
      if (snd x <? snd y)%nat then y :: insert_desc x l' else x :: y :: l'
  end.

Fixpoint sort_desc (l : list (string * nat)) : list (string * nat) :=
  match l with
  | [] => []
  | x :: l' => insert_desc x (sort_desc l')
  end.

(** [counter.most_common(n)], which the library documents as
    [sorted(counter.items(), key=itemgetter(1), reverse=True)[:n]]. *)
Definition most_common (n : nat) (c : list (string * nat))
  : list (string * nat) :=
  take n (sort_desc c).

(** The words that are counted: [filtered_words]. *)
Definition filtered_words (text : string) : list string :=
  let words := re_findall word_pattern (clean_text text) in
  List.filter (fun word => negb (is_stop_word word)) words.

Definition extract_keywords `{WordNet} `{SetOrder} (text : string)
  : list kw_info :=
  let word_counter := Counter (filtered_words text) in
  let top_keywords := map fst (most_common 30 word_counter) in
  map (fun kw =>
         KwInfo kw (categorize_keyword kw) (get_synonyms kw)
           (counter_get word_counter kw))
      top_keywords.

(** ** [generate_improvement_suggestions] *)

(** [missing_by_category]: a dictionary from category to the list of its
    missing keywords, in the order the categories first appear. *)
Fixpoint group_add (kw : missing_kw) (groups : list (string * list missing_kw))
  : list (string * list missing_kw) :=
  match groups with
  | [] => [(m_category kw, [kw])]
  | (c, l) :: g' =>
      if String.eqb c (m_category kw) then (c, l ++ [kw]) :: g'
      else (c, l) :: group_add kw g'
  end.

Definition group_by_category (missing : list missing_kw)
  : list (string * list missing_kw) :=
  fold_left (fun groups kw => group_add kw groups) missing [].

Definition cited (n : nat) (keywords : list missing_kw) : list string :=
  map m_keyword (take n keywords).

Definition technical_suggestion (names : list string) : string :=
  "**Add technical skills**: Consider including " +:+ join ", " names +:+
  " in your skills section".

Definition tools_suggestion (names : list string) : string :=
  "**Learn tools**: Gain experience with " +:+ join ", " names +:+
  " through online courses or projects".

Definition soft_suggestion (names : list string) : string :=
  "**Highlight soft skills**: Add examples demonstrating " +:+
  join ", " names +:+ " in your experience section".

Definition nonempty {A : Type} (l : list A) : bool :=
  match l with [] => false | _ => true end.

(** The body of [for category, keywords in missing_by_category.items()]:
    the suggestions it appends. *)
Definition category_suggestion (group : string * list missing_kw)
  : list string :=
  let (cat, keywords) := group in
  if String.eqb cat Technical_Skills then
    let tech_keywords := cited 3 keywords in
    if nonempty tech_keywords then [technical_suggestion tech_keywords] else []
  else if String.eqb cat Tools_Technologies then
    let tools := cited 3 keywords in
    if nonempty tools then [tools_suggestion tools] else []
  else if String.eqb cat Soft_Skills then
    let soft_skills := cited 2 keywords in
    if nonempty soft_skills then [soft_suggestion soft_skills] else []
  else [].

Definition major_revision : string :=
  "**Major revision needed**: Consider significantly restructuring your resume to better match the job requirements".
Definition moderate_improvements : string :=
  "**Moderate improvements**: Focus on adding the top missing keywords to your resume".
Definition good_match : string :=
  "**Good match**: Minor tweaks suggested for optimal alignment".

Definition severity_suggestion (n : nat) : string :=
  if (10 <? n)%nat then major_revision
  else if (5 <? n)%nat then moderate_improvements
  else good_match.

Definition generate_improvement_suggestions (missing : list missing_kw)
    (found : list found_kw) : list string :=
  flat_map category_suggestion (group_by_category missing)
  ++ [severity_suggestion (length missing)].

(** ** Vocabulary of the statements *)

(** [a] occurs in [b] as a contiguous block of characters. *)
Definition substring (a b : string) : Prop :=
  exists pre post : string, b = pre +:+ a +:+ post.

(** The three outcomes of matching one keyword.  The program records an
    outcome by the list the entry is appended to and by its
    ['match_type']. *)
Inductive status : Type :=
| ExactMatch
| SynonymMatch (matched_synonym : string)
| Missing.

(** [m] is the first element of [l] that satisfies [P]. *)
Definition first_such (P : string -> Prop) (m : string) (l : list string)
  : Prop :=
  exists l1 l2 : list string,
    l = l1 ++ m :: l2 /\ P m /\ forall s, s ∈ l1 -> ~ P s.

(** The classification rule in the words of the specification. *)
Definition status_spec (resume_clean : string) (kw : kw_info) (st : status)
  : Prop :=
  (st = ExactMatch <-> substring (keyword kw) resume_clean) /\
  (forall m, st = SynonymMatch m <->
     ~ substring (keyword kw) resume_clean /\
     first_such (fun s => substring s resume_clean) m (synonyms kw)) /\
  (st = Missing <->
     ~ substring (keyword kw) resume_clean /\
     forall s, s ∈ synonyms kw -> ~ substring s resume_clean).

(** What an outcome contributes to [found_keywords] and to
    [missing_keywords]. *)
Definition found_entry (kw : kw_info) (st : status) : list found_kw :=
  match st with
  | ExactMatch =>
      [FoundKw (keyword kw) (category kw) "exact" None (synonyms kw)]
  | SynonymMatch m =>
      [FoundKw (keyword kw) (category kw) "synonym" (Some m) (synonyms kw)]
  | Missing => []
  end.

Definition missing_entry (kw : kw_info) (st : status) : list missing_kw :=
  match st with
  | Missing => [MissingKw (keyword kw) (category kw) (synonyms kw)]
  | _ => []
  end.

(** The outcome the loop body computes for one keyword. *)
Definition classify (resume_clean : string) (kw : kw_info) : status :=
  if str_in (keyword kw) resume_clean then ExactMatch
  else
    match next_synonym resume_clean (synonyms kw) with
    | Some m => SynonymMatch m
    | None => Missing
    end.

Definition statuses (resume_clean : string) (kws : list kw_info)
  : list status :=
  map (classify resume_clean) kws.

Definition is_exact (st : status) : bool :=
  match st with ExactMatch => true | _ => false end.
Definition is_synonym (st : status) : bool :=
  match st with SynonymMatch _ => true | _ => false end.
Definition is_missing (st : status) : bool :=
  match st with Missing => true | _ => false end.

(** Tallies over the entries of [found_keywords]. *)
Definition tally (match_type : string) (found : list found_kw) : nat :=
  length (List.filter (fun f => String.eqb (f_match_type f) match_type) found).

(** Two keyword records that differ at most in ['count']. *)
Definition same_but_count (a b : kw_info) : Prop :=
  keyword a = keyword b /\ category a = category b /\ synonyms a = synonyms b.

(** A synonym the resolver may return for [word]: another string, of
    exactly one word. *)
Definition acceptable_synonym (word s : string) : Prop :=
  s <> word /\ length (split s) = 1%nat.

(** The dictionary raises during the lookup of [word]: in
    [wordnet.synsets] or while the lemmas of one of the synsets are read. *)
Definition lookup_fails `{WordNet} (word : string) : Prop :=
  wn_synsets word = None \/
  exists (syns : list synset) (syn : synset),
    wn_synsets word = Some syns /\ syn ∈ syns /\ wn_lemma_names syn = None.

(** A dictionary for examples: two synsets for one word, an exception
    for another, nothing for the rest. *)
Definition SampleWordnet : WordNet := {|
  synset := list string;
  wn_synsets := fun word =>
    if String.eqb word "programming"
    then Some [["programming"; "coding"; "computer_programming"];
               ["scheduling"; "coding"; "programing"]]
    else if String.eqb word "broken" then None
    else Some [];
  wn_lemma_names := fun names => Some names
|}.

(** The values of a list in the order they first appear. *)
Definition first_seen (l : list string) : list string :=
  fold_left
    (fun seen x => if existsb (String.eqb x) seen then seen else seen ++ [x])
    l [].

(** The missing keywords of one category, in their order. *)
Definition missing_in (cat : string) (missing : list missing_kw)
  : list missing_kw :=
  List.filter (fun kw => String.eqb (m_category kw) cat) missing.

(** The suggestion for one category in the words of the specification:
    the first three missing technical keywords, the first three tools, the
    first two soft skills, nothing for any other category. *)
Definition suggestion_for (cat : string) (missing : list missing_kw)
  : list string :=
  if String.eqb cat "Technical Skills" then
    [technical_suggestion (map m_keyword (take 3 (missing_in cat missing)))]
  else if String.eqb cat "Tools & Technologies" then
    [tools_suggestion (map m_keyword (take 3 (missing_in cat missing)))]
  else if String.eqb cat "Soft Skills" then
    [soft_suggestion (map m_keyword (take 2 (missing_in cat missing)))]
  else [].

Definition category_suggestions (missing : list missing_kw) : list string :=
  flat_map (fun cat => suggestion_for cat missing)
           (first_seen (map m_category missing)).

(** The character before the end of [s], or [prev] when [s] is empty. *)
Fixpoint last_from (prev : option ascii) (s : string) : option ascii :=
  match s with
  | EmptyString => prev
  | String c s' => last_from (Some c) s'
  end.

Definition last_char (s : string) : option ascii := last_from None s.

(** [w] stands in [text] as a word: the characters around it, if any, are
    not word characters. *)
Definition occurs_as_word (w text : string) : Prop :=
  exists pre post : string,
    text = pre +:+ w +:+ post /\
    word_before (last_char pre) = false /\ word_after post = false.

(** What the regular expression of [extract_keywords] compiles to. *)
Definition word_items : list item :=
  [WordB; AtLeast 3 (Class [("a", "z"); ("A", "Z")]%char); WordB].

(** Number of occurrences of [w] in a token stream. *)
Definition occurrences (w : string) (l : list string) : nat :=
  length (List.filter (String.eqb w) l).

(** Position of the first occurrence of [w] in a token stream (its length
    when [w] does not occur). *)
Fixpoint index_of (w : string) (l : list string) : nat :=
  match l with
  | [] => 0%nat
  | x :: l' => if String.eqb x w then 0%nat else S (index_of w l')
  end.

(** The ranking of two counter items: the higher count first, and of two
    equal counts the word that occurs first in the token stream. *)
Definition item_before (toks : list string) (a b : string * nat) : Prop :=
  (snd b < snd a)%nat \/
  (snd a = snd b /\ (index_of (fst a) toks < index_of (fst b) toks)%nat).

(** [a] occurs before [b] in the token stream. *)
Definition item_earlier (toks : list string) (a b : string * nat) : Prop :=
  (index_of (fst a) toks < index_of (fst b) toks)%nat.


(** The part of an entry that does not come from the dictionary. *)
Definition ranking_view (e : kw_info) : string * string * nat :=
  (keyword e, category e, count e).

(** ** The entry point and its helpers *)

(** [str.strip()] without arguments. *)
Fixpoint lstrip (s : string) : string :=
  match s with
  | EmptyString => EmptyString
  | String c s' => if is_space c then lstrip s' else s
  end.

Fixpoint rstrip (s : string) : string :=
  match s with
  | EmptyString => EmptyString
  | String c s' =>
      let r := rstrip s' in
      if is_space c && is_empty r then EmptyString else String c r
  end.

Definition strip (s : string) : string := rstrip (lstrip s).

(** The test [not text.strip()] of [main]. *)
Definition is_blank (text : string) : bool := is_empty (strip text).

(** A piece of cleaned text: not empty, with no white space and no capital
    letter in it. *)
Definition clean_word (w : string) : Prop :=
  w <> "" /\
  Forall (fun c => is_space c = false /\ is_upper c = false) (chars w).

(** [str.split(sep)] for a separator of one character: every piece, the
    empty ones too, so the list is never empty. *)
Fixpoint split_on (sep : ascii) (cur : string) (s : string) : list string :=
  match s with
  | EmptyString => [cur]
  | String c s' =>
      if Ascii.eqb c sep then cur :: split_on sep EmptyString s'
      else split_on sep (cur +:+ String c EmptyString) s'
  end.

Definition newline : string := String "010" EmptyString.

(** An uploaded file: its name and its bytes. *)
Record uploaded_file : Type := UploadedFile {
  file_name : string;
  file_value : string
}.

(** The document readers [extract_text_from_file] relies on; [None] is an
    exception.  [decode_utf8] is [bytes.decode("utf-8")],
    [docx_paragraphs] gives the texts of the paragraphs of a Word document
    and [pdf_page_texts] the extracted text of each page of a PDF. *)
Class Decoders : Type := {
  decode_utf8 : string -> option string;
  docx_paragraphs : string -> option (list string);
  pdf_page_texts : string -> option (list string)
}.

(** The two messages [extract_text_from_file] shows with [st.error]. *)
Inductive file_error : Type :=
| UnsupportedType (file_type : string)
| ReadError.

(** [uploaded_file.name.split('.')[-1].lower()] *)
Definition file_type_of (name : string) : string :=
  lower (List.last (split_on "." EmptyString name) EmptyString).

(** The loop [for page in pdf_reader.pages: text += ... + '\n']. *)
Definition pdf_text (pages : list string) : string :=
  fold_left (fun text page => text +:+ page +:+ newline) pages EmptyString.

(** [extract_text_from_file]: the text returned and the error shown. *)
Definition extract_text_from_file `{Decoders} (uploaded : option uploaded_file)
  : string * option file_error :=
  match uploaded with
  | None => (EmptyString, None)
  | Some f =>
      let file_type := file_type_of (file_name f) in
      if String.eqb file_type "txt" then
        match decode_utf8 (file_value f) with
        | Some text => (text, None)
        | None => (EmptyString, Some ReadError)
        end
      else if String.eqb file_type "docx" then
        match docx_paragraphs (file_value f) with
        | Some paragraphs => (join newline paragraphs, None)
        | None => (EmptyString, Some ReadError)
        end
      else if String.eqb file_type "pdf" then
        match pdf_page_texts (file_value f) with
        | Some pages => (pdf_text pages, None)
        | None => (EmptyString, Some ReadError)
        end
      else (EmptyString, Some (UnsupportedType file_type))
  end.

(** Readers for examples: the bytes of a file are its text, a Word
    document has one paragraph, and reading a PDF raises. *)
Definition PlainDecoders : Decoders := {|
  decode_utf8 := fun b => Some b;
  docx_paragraphs := fun b => Some [b];
  pdf_page_texts := fun _ => None
|}.

(** What a press of the analysis button in [main] leads to. *)
Inductive outcome : Type :=
| BothFilesNeeded
| ResumeEmpty
| JobEmpty
| NoKeywords
| Raised
| Report (results : match_result) (suggestions : list string).

(** The score interpretation of [main]. *)
Definition score_message (match_score : Q) : string :=
  if Qle_bool 80 match_score then "Excellent match!"
  else if Qle_bool 60 match_score then "Good match"
  else if Qle_bool 40 match_score then "Needs improvement"
  else "Major improvements needed".

(** The analysis of [main] once the two texts are read. *)
Definition analyze_texts `{WordNet} `{SetOrder} (resume_text job_text : string)
  : outcome :=
  if is_blank resume_text then ResumeEmpty
  else if is_blank job_text then JobEmpty
  else
    let job_keywords := extract_keywords job_text in
    if nonempty job_keywords then
      match calculate_match resume_text job_keywords with
      | Some results =>
          Report results
            (generate_improvement_suggestions
               (missing_keywords results) (found_keywords results))
      | None => Raised
      end
    else NoKeywords.

Definition analyze `{Decoders} `{WordNet} `{SetOrder}
    (resume_file job_file : option uploaded_file) : outcome :=
  match resume_file, job_file with
  | Some _, Some _ =>
      let resume_text := fst (extract_text_from_file resume_file) in
      let job_text := fst (extract_text_from_file job_file) in
      analyze_texts resume_text job_text
  | _, _ => BothFilesNeeded
  end.

(** An ordered dictionary from strings to numbers: [d.get(k, default)] and
    [d[k] = v]. *)
Fixpoint dict_get (d : list (string * nat)) (k : string) (default : nat)
  : nat :=
  match d with
  | [] => default
  | (k', v) :: d' => if String.eqb k' k then v else dict_get d' k default
  end.

Fixpoint dict_set (k : string) (v : nat) (d : list (string * nat))
  : list (string * nat) :=
  match d with
  | [] => [(k, v)]
  | (k', v') :: d' =>
      if String.eqb k' k then (k', v) :: d' else (k', v') :: dict_set k v d'
  end.

(** [category_counts] of [main], the data of the bar chart of missing
    keywords. *)
Definition category_counts (missing : list missing_kw)
  : list (string * nat) :=
  fold_left
    (fun d kw =>
       dict_set (m_category kw) (dict_get d (m_category kw) 0 + 1) d)
    missing [].



(** The technical patterns that are a plain term between two [.*]. *)
Definition technical_terms : list string :=
  [ "programming"; "development"; "engineering"; "coding"; "algorithm";
    "database"; "sql"; "python"; "java"; "javascript"; "react"; "node";
    "ai"; "cloud"; "aws"; "azure"; "docker"; "kubernetes"; "devops"; "api";
    "web"; "mobile"; "software"; "system"; "network"; "security" ].

(** The items a pattern [.*term.*] compiles to. *)
Definition term_items (term : string) : list item :=
  AtLeast 0 Dot :: map (fun c => One (Lit c)) (chars term) ++ [AtLeast 0 Dot].


Definition no_newline (s : string) : bool :=
  forallb (fun c => negb (code c =? 10)) (chars s).

(** A string the dictionary offers for [word]: the name of a lemma of one
    of its synsets, with spaces for underscores, when that is acceptable. *)
Definition is_candidate `{WordNet} (word s : string) : Prop :=
  exists (syns : list synset) (syn : synset) (names : list string)
         (name : string),
    wn_synsets word = Some syns /\ syn ∈ syns /\
    wn_lemma_names syn = Some names /\ name ∈ names /\
    s = replace_char "_" " " name /\ acceptable_synonym word s.

(** [s] is what the lemma name [name] offers for [word]. *)
Definition offered_as (word name s : string) : Prop :=
  s = replace_char "_" " " name /\ acceptable_synonym word s.

(** A second dictionary for examples, with one synset for one word. *)
Definition SmallWordnet : WordNet := {|
  synset := list string;
  wn_synsets := fun word =>
    if String.eqb word "resume"
    then Some [["resume"; "curriculum_vitae"; "CV"]]
    else Some [];
  wn_lemma_names := fun names => Some names
|}.

(** * Properties *)

(** ** Strings *)

Section StringFacts.

Lemma append_nil_l (s : string) : "" +:+ s = s.
Proof. reflexivity. Qed.

Lemma append_cons (c : ascii) (s t : string) :
  String c s +:+ t = String c (s +:+ t).
Proof. reflexivity. Qed.

Lemma append_nil_r (s : string) : s +:+ "" = s.
Proof.
  induction s as [|c s IH]; [reflexivity | now rewrite append_cons, IH].
Qed.

Lemma append_assoc (a b c : string) : (a +:+ b) +:+ c = a +:+ b +:+ c.
Proof.
  induction a as [|x a IH]; [reflexivity | now rewrite !append_cons, IH].
Qed.

Lemma prefix_spec (a b : string) :
  String.prefix a b = true <-> exists post, b = a +:+ post.
Proof.
  revert b. induction a as [|x a IH]; intros b.
  - destruct b; simpl; split; eauto.
  - destruct b as [|y b]; simpl.
    + split; [discriminate | intros [post Hp]; discriminate].
    + destruct (ascii_dec x y) as [->|Hne].
      * rewrite IH. split; intros [post Hp]; exists post;
          rewrite append_cons in *; congruence.
      * split; [discriminate |].
        intros [post Hp]. rewrite append_cons in Hp. congruence.
Qed.

Lemma str_in_spec (a b : string) : str_in a b = true <-> substring a b.
Proof.
  unfold substring. induction b as [|y b IH]; cbn [str_in].
  - rewrite orb_false_r, prefix_spec. split.
    + intros [post Hp]. exists "", post. exact Hp.
    + intros [pre [post Hp]]. destruct pre; [eauto | discriminate].
  - rewrite orb_true_iff, prefix_spec, IH. split.
    + intros [[post Hp] | [pre [post Hp]]].
      * exists "", post. exact Hp.
      * exists (String y pre), post. now rewrite append_cons, Hp.
    + intros [pre [post Hp]]. destruct pre as [|z pre].
      * left. eauto.
      * right. exists pre, post. rewrite append_cons in Hp. congruence.
Qed.

Lemma str_in_false (a b : string) : str_in a b = false <-> ~ substring a b.
Proof.
  rewrite <- str_in_spec. destruct (str_in a b); split; congruence.
Qed.

End StringFacts.

(** ** The matching loop *)

Section Matching.

Variable resume_clean : string.

Lemma next_synonym_some (syns : list string) :
  any_synonym resume_clean syns = true ->
  exists m, next_synonym resume_clean syns = Some m.
Proof.
  unfold any_synonym, next_synonym.
  induction syns as [|s syns IH]; simpl; [discriminate |].
  destruct (str_in s resume_clean); simpl; eauto.
Qed.

Lemma next_synonym_none (syns : list string) :
  any_synonym resume_clean syns = false ->
  next_synonym resume_clean syns = None.
Proof.
  unfold any_synonym, next_synonym.
  induction syns as [|s syns IH]; simpl; [reflexivity |].
  destruct (str_in s resume_clean); simpl; [discriminate | exact IH].
Qed.

Lemma next_synonym_first (syns : list string) (m : string) :
  next_synonym resume_clean syns = Some m <->
  first_such (fun s => substring s resume_clean) m syns.
Proof.
  unfold next_synonym, first_such.
  induction syns as [|s syns IH]; simpl.
  - split; [discriminate |].
    intros (l1 & l2 & Hl & _). destruct l1; discriminate.
  - destruct (str_in s resume_clean) eqn:Hs.
    + split.
      * intros [= <-]. exists [], syns. split; [reflexivity |].
        split; [now apply str_in_spec | intros x Hx; inversion Hx].
      * intros (l1 & l2 & Hl & Hm & Hno). destruct l1 as [|x l1].
        -- simpl in Hl. congruence.
        -- simpl in Hl. injection Hl as <- _.
           exfalso. apply (Hno s); [left | now apply str_in_spec].
    + rewrite IH. split.
      * intros (l1 & l2 & -> & Hm & Hno). exists (s :: l1), l2.
        split; [reflexivity |]. split; [exact Hm |].
        intros x Hx. apply elem_of_cons in Hx as [-> | Hx].
        -- now apply str_in_false.
        -- now apply Hno.
      * intros (l1 & l2 & Hl & Hm & Hno). destruct l1 as [|x l1].
        -- simpl in Hl. injection Hl as -> _.
           apply str_in_spec in Hm. congruence.
        -- simpl in Hl. injection Hl as <- ->. exists l1, l2.
           split; [reflexivity |]. split; [exact Hm |].
           intros y Hy. apply Hno. now right.
Qed.

Lemma next_synonym_none_iff (syns : list string) :
  next_synonym resume_clean syns = None <->
  forall s, s ∈ syns -> ~ substring s resume_clean.
Proof.
  unfold next_synonym. induction syns as [|s syns IH]; simpl.
  - split; [intros _ x Hx; inversion Hx | reflexivity].
  - destruct (str_in s resume_clean) eqn:Hs.
    + split; [discriminate |]. intros H. exfalso.
      apply (H s); [left | now apply str_in_spec].
    + rewrite IH. split.
      * intros H x Hx. apply elem_of_cons in Hx as [-> | Hx];
          [now apply str_in_false | now apply H].
      * intros H x Hx. apply H. now right.
Qed.

(** The loop body never raises, and does what [classify] says. *)
Lemma match_step_classify (st : match_state) (kw : kw_info) :
  match_step resume_clean st kw =
  Some (MatchState
          (st_found st ++ found_entry kw (classify resume_clean kw))
          (st_missing st ++ missing_entry kw (classify resume_clean kw))
          (st_exact st + (if is_exact (classify resume_clean kw) then 1 else 0))%nat
          (st_synonym st + (if is_synonym (classify resume_clean kw) then 1 else 0))%nat).
Proof.
  unfold match_step, classify.
  destruct (str_in (keyword kw) resume_clean); simpl.
  - rewrite app_nil_r. do 2 f_equal; lia.
  - destruct (any_synonym resume_clean (synonyms kw)) eqn:Hany.
    + destruct (next_synonym_some _ Hany) as [m ->]. simpl.
      rewrite app_nil_r. do 2 f_equal; lia.
    + rewrite (next_synonym_none _ Hany). simpl.
      rewrite app_nil_r. do 2 f_equal; lia.
Qed.

Lemma classify_spec (kw : kw_info) :
  status_spec resume_clean kw (classify resume_clean kw).
Proof.
  unfold status_spec, classify.
  destruct (str_in (keyword kw) resume_clean) eqn:Hk.
  - apply str_in_spec in Hk. repeat split; try discriminate; tauto.
  - apply str_in_false in Hk.
    destruct (next_synonym resume_clean (synonyms kw)) as [m|] eqn:Hn.
    + split; [split; [discriminate | tauto] |]. split.
      * intros m'. rewrite <- next_synonym_first, Hn.
        split; [intros [= ->]; tauto | intros [_ [= ->]]; reflexivity].
      * split; [discriminate |]. intros [_ Hno].
        apply next_synonym_none_iff in Hno. congruence.
    + split; [split; [discriminate | tauto] |]. split.
      * intros m'. rewrite <- next_synonym_first, Hn.
        split; [discriminate | intros [_ [=]]].
      * split; [| reflexivity]. intros _. split; [exact Hk |].
        now apply next_synonym_none_iff.
Qed.

Lemma match_loop_classify (kws : list kw_info) (st : match_state) :
  match_loop resume_clean st kws =
  Some (MatchState
          (st_found st ++ concat (zip_with found_entry kws (statuses resume_clean kws)))
          (st_missing st ++ concat (zip_with missing_entry kws (statuses resume_clean kws)))
          (st_exact st + length (List.filter is_exact (statuses resume_clean kws)))%nat
          (st_synonym st + length (List.filter is_synonym (statuses resume_clean kws)))%nat).
Proof.
  revert st. induction kws as [|kw kws IH]; intros st; simpl.
  - rewrite !app_nil_r, !Nat.add_0_r. now destruct st.
  - rewrite match_step_classify, IH. simpl.
    rewrite <- !app_assoc. f_equal. f_equal.
    + destruct (is_exact (classify resume_clean kw)); simpl; lia.
    + destruct (is_synonym (classify resume_clean kw)); simpl; lia.
Qed.

End Matching.

(** ** [calculate_match] *)

Section CalculateMatch.

Variable resume_text : string.

Local Abbreviation rc := (clean_text resume_text).

Lemma calculate_match_eq (kws : list kw_info) :
  calculate_match resume_text kws =
  let sts := statuses rc kws in
  let exact := length (List.filter is_exact sts) in
  let syn := length (List.filter is_synonym sts) in
  Some (MatchResult
          (if (0 <? length kws)%nat
           then weighted_score exact syn (length kws) else 0%Q)
          (concat (zip_with found_entry kws sts))
          (concat (zip_with missing_entry kws sts))
          (length kws) exact syn).
Proof.
  unfold calculate_match. rewrite match_loop_classify. reflexivity.
Qed.

Lemma statuses_partition (kws : list kw_info) :
  (length (List.filter is_exact (statuses rc kws)) +
   length (List.filter is_synonym (statuses rc kws)) +
   length (List.filter is_missing (statuses rc kws)) = length kws)%nat.
Proof.
  unfold statuses. induction kws as [|kw kws IH]; simpl; [reflexivity |].
  destruct (classify rc kw); simpl; lia.
Qed.

Lemma missing_entries_length (kws : list kw_info) :
  length (concat (zip_with missing_entry kws (statuses rc kws))) =
  length (List.filter is_missing (statuses rc kws)).
Proof.
  unfold statuses. induction kws as [|kw kws IH]; simpl; [reflexivity |].
  rewrite length_app, IH. destruct (classify rc kw); reflexivity.
Qed.

Lemma found_entries_tally (kws : list kw_info) :
  tally "exact" (concat (zip_with found_entry kws (statuses rc kws))) =
    length (List.filter is_exact (statuses rc kws)) /\
  tally "synonym" (concat (zip_with found_entry kws (statuses rc kws))) =
    length (List.filter is_synonym (statuses rc kws)) /\
  length (concat (zip_with found_entry kws (statuses rc kws))) =
    (length (List.filter is_exact (statuses rc kws)) +
     length (List.filter is_synonym (statuses rc kws)))%nat.
Proof.
  unfold statuses, tally. induction kws as [|kw kws (IH1 & IH2 & IH3)]; simpl.
  - auto.
  - rewrite !List.filter_app, !length_app, IH1, IH2, IH3.
    destruct (classify rc kw); simpl; repeat split; lia.
Qed.

End CalculateMatch.

Lemma same_but_count_entries (rc : string) (kws1 kws2 : list kw_info) :
  Forall2 same_but_count kws1 kws2 ->
  statuses rc kws1 = statuses rc kws2 /\
  zip_with found_entry kws1 (statuses rc kws1) =
    zip_with found_entry kws2 (statuses rc kws2) /\
  zip_with missing_entry kws1 (statuses rc kws1) =
    zip_with missing_entry kws2 (statuses rc kws2).
Proof.
  unfold statuses.
  induction 1 as [|a b l1 l2 (Hk & Hc & Hs) _ (IH1 & IH2 & IH3)]; simpl.
  - auto.
  - assert (Hcl : classify rc a = classify rc b)
      by (unfold classify; now rewrite Hk, Hs).
    rewrite IH2, IH3, IH1, Hcl. repeat split.
    + f_equal. destruct (classify rc b); simpl; now rewrite ?Hk, ?Hc, ?Hs.
    + f_equal. destruct (classify rc b); simpl; now rewrite ?Hk, ?Hc, ?Hs.
Qed.


Lemma nat_to_Q_pos (n : nat) : (0 < n)%nat -> (0 < nat_to_Q n)%Q.
Proof.
  intros H. unfold nat_to_Q. change 0%Q with (inject_Z 0).
  rewrite <- Zlt_Qlt. lia.
Qed.



(** In binary64 the score of every outcome on at most 30 keywords, the
    most [extract_keywords] returns, lies between 0 and 100 as well. *)
Lemma weighted_score_binary64_range (e s t : nat) :
  (1 <= t <= 30)%nat -> (e + s <= t)%nat ->
  percentage_in_range (weighted_score_binary64 e s t) = true.
Proof.
  intros Ht Hsum.
  assert (Hall : binary64_scores_in_range 30 = true) by (vm_compute; reflexivity).
  unfold binary64_scores_in_range in Hall.
  assert (Ht' : In t (seq 1 30)) by (apply in_seq; lia).
  assert (He : In e (seq 0 (S t))) by (apply in_seq; lia).
  assert (Hs : In s (seq 0 (S t - e))) by (apply in_seq; lia).
  pose proof (proj1 (forallb_forall _ _) Hall t Ht') as H1. cbv beta in H1.
  pose proof (proj1 (forallb_forall _ _) H1 e He) as H2. cbv beta in H2.
  exact (proj1 (forallb_forall _ _) H2 s Hs).
Qed.


(** C2.  Every keyword record is classified by the rule: exact match if
    and only if its text is a substring of the cleaned resume; otherwise
    synonym match if and only if one of its synonyms is, the recorded
    synonym being the first such in the list; otherwise missing.  The
    entries of [found_keywords] and [missing_keywords] are those of the
    classified keywords, in the order of the input. *)
Theorem calculate_match_classification (resume_text : string)
    (kws : list kw_info) :
  exists (r : match_result) (sts : list status),
    calculate_match resume_text kws = Some r /\
    Forall2 (status_spec (clean_text resume_text)) kws sts /\
    found_keywords r = concat (zip_with found_entry kws sts) /\
    missing_keywords r = concat (zip_with missing_entry kws sts).
Proof.
  rewrite calculate_match_eq.
  eexists. exists (statuses (clean_text resume_text) kws).
  split; [reflexivity |]. simpl. split; [| split; reflexivity].
  unfold statuses. induction kws as [|kw kws IH]; simpl; constructor.
  - apply classify_spec.
  - exact IH.
Qed.

(** C8.  The counts of the result are the tallies of its entries: exact
    matches plus synonym matches plus missing keywords is the total, the
    total is the length of the input, and the two match counts are the
    numbers of found entries of each match type. *)
Theorem calculate_match_counts (resume_text : string) (kws : list kw_info) :
  exists r : match_result,
    calculate_match resume_text kws = Some r /\
    (exact_matches r + synonym_matches r + length (missing_keywords r)
     = total_keywords r)%nat /\
    total_keywords r = length kws /\
    tally "exact" (found_keywords r) = exact_matches r /\
    tally "synonym" (found_keywords r) = synonym_matches r /\
    length (found_keywords r) = (exact_matches r + synonym_matches r)%nat.
Proof.
  rewrite calculate_match_eq. eexists. split; [reflexivity |]. simpl.
  pose proof (statuses_partition resume_text kws) as Hpart.
  pose proof (missing_entries_length resume_text kws) as Hmiss.
  destruct (found_entries_tally resume_text kws) as (He & Hs & Hf).
  repeat split; try assumption; try reflexivity. lia.
Qed.

(** C9.  The result does not depend on the ['count'] fields: two keyword
    lists that agree on keyword, category and synonyms position by position
    give the same result for every resume. *)
Theorem calculate_match_ignores_count (resume_text : string)
    (kws1 kws2 : list kw_info) :
  Forall2 same_but_count kws1 kws2 ->
  calculate_match resume_text kws1 = calculate_match resume_text kws2.
Proof.
  intros H. rewrite !calculate_match_eq. simpl.
  destruct (same_but_count_entries (clean_text resume_text) _ _ H)
    as (Hst & Hf & Hm).
  rewrite Hf, Hm, Hst, (Forall2_length _ _ _ H). reflexivity.
Qed.

Lemma calculate_match_ignores_count_witness :
  let kws1 := [KwInfo "python" "Technical Skills" ["snake"] 3] in
  let kws2 := [KwInfo "python" "Technical Skills" ["snake"] 7] in
  Forall2 same_but_count kws1 kws2 /\
  calculate_match "Python developer" kws1 =
  calculate_match "Python developer" kws2.
Proof.
  assert (H : Forall2 same_but_count
                [KwInfo "python" "Technical Skills" ["snake"] 3]
                [KwInfo "python" "Technical Skills" ["snake"] 7]).
  { constructor; [| constructor]. repeat split. }
  split; [exact H |].
  exact (calculate_match_ignores_count "Python developer" _ _ H).
Defined.

(** ** [categorize_keyword] *)

Ltac ascii_cases c := destruct c as [[|] [|] [|] [|] [|] [|] [|] [|]].

Lemma compile_tools_first :
  compile "^[a-z]+\+?$" =
  Some [Bol; AtLeast 1 (Class [("a", "z")]%char); Opt (Lit "+"); Eol].
Proof. reflexivity. Qed.

Lemma alpha_in_class (c : ascii) :
  is_alpha c = true ->
  atom_matches true (Class [("a", "z")]%char) c = true.
Proof. ascii_cases c; vm_compute; congruence. Qed.

(** On a run of letters that is the whole string, [[a-z]+\+?$] succeeds
    under [re.IGNORECASE]. *)
Lemma rep_letters (w : string) (n : nat) (prev : option ascii) :
  forallb is_alpha (chars w) = true ->
  (n <= String.length w)%nat ->
  is_Some (rep (atom_matches true (Class [("a", "z")]%char))
             (match_items true [Opt (Lit "+"); Eol]) n prev w).
Proof.
  revert n prev. induction w as [|c w IH]; intros n prev Hall Hlen.
  - simpl in Hlen. assert (n = 0%nat) as -> by lia. simpl. eauto.
  - simpl in Hall. apply andb_true_iff in Hall as [Hc Hw].
    cbn [rep]. rewrite (alpha_in_class c Hc).
    destruct (IH (pred n) (Some c) Hw) as [j Hj]; [simpl in Hlen; lia |].
    rewrite Hj. eauto.
Qed.

Lemma tools_first_matches (w : string) :
  w <> "" -> forallb is_alpha (chars w) = true ->
  re_match "^[a-z]+\+?$" w true = true.
Proof.
  intros Hne Hall. unfold re_match. rewrite compile_tools_first.
  apply bool_decide_eq_true. cbn [match_items].
  apply rep_letters; [exact Hall |].
  destruct w; [congruence | simpl; lia].
Qed.

(** The three lists are tried in the order technical, tools, soft skills,
    and the first list with a matching pattern decides. *)
Lemma categorize_priority (w : string) :
  (any_match technical_patterns w = true ->
   categorize_keyword w = Technical_Skills) /\
  (any_match technical_patterns w = false ->
   any_match tools_patterns w = true ->
   categorize_keyword w = Tools_Technologies) /\
  (any_match technical_patterns w = false ->
   any_match tools_patterns w = false ->
   any_match soft_patterns w = true ->
   categorize_keyword w = Soft_Skills) /\
  (any_match technical_patterns w = false ->
   any_match tools_patterns w = false ->
   any_match soft_patterns w = false ->
   categorize_keyword w = Other_Skills).
Proof.
  unfold categorize_keyword.
  repeat split; intros; repeat match goal with H : _ = _ |- _ => rewrite H end;
    reflexivity.
Qed.

(** The soft-skills category is reached by words that are not purely
    alphabetic. *)
Example categorize_soft_phrases :
  map categorize_keyword
    ["problem solving"; "time-management"; "communication skills"] =
  [Soft_Skills; Soft_Skills; Soft_Skills].
Proof. vm_compute. reflexivity. Qed.

(** C3.  The words "communication", "teamwork" and "leadership" are put
    in the tools category, not in the soft-skills category: each matches a
    soft-skills pattern and no technical pattern, but the first tools
    pattern accepts it before the soft-skills list is tried. *)
Theorem categorize_soft_words :
  Forall (fun w =>
            any_match technical_patterns w = false /\
            any_match tools_patterns w = true /\
            any_match soft_patterns w = true /\
            categorize_keyword w = Tools_Technologies)
         ["communication"; "teamwork"; "leadership"].
Proof. repeat constructor. Qed.

(** C10.  A non-empty word made of letters only is put in the technical
    or in the tools category, never in the soft-skills or the other
    category. *)
Theorem categorize_alphabetic (w : string) :
  w <> "" -> forallb is_alpha (chars w) = true ->
  (categorize_keyword w = Technical_Skills \/
   categorize_keyword w = Tools_Technologies) /\
  categorize_keyword w <> Soft_Skills /\
  categorize_keyword w <> Other_Skills.
Proof.
  intros Hne Hall. unfold categorize_keyword.
  destruct (any_match technical_patterns w).
  - split; [now left |]. split; discriminate.
  - assert (Ht : any_match tools_patterns w = true).
    { unfold any_match, tools_patterns. cbn [existsb].
      now rewrite (tools_first_matches w Hne Hall). }
    rewrite Ht. split; [now right |]. split; discriminate.
Qed.

Lemma categorize_alphabetic_witness :
  ("communication" <> "" /\
   forallb is_alpha (chars "communication") = true) /\
  (categorize_keyword "communication" = Technical_Skills \/
   categorize_keyword "communication" = Tools_Technologies) /\
  categorize_keyword "communication" <> Soft_Skills /\
  categorize_keyword "communication" <> Other_Skills.
Proof.
  split; [split; [discriminate | reflexivity] |].
  apply (categorize_alphabetic "communication"); [discriminate | reflexivity].
Defined.

(** ** [get_synonyms] *)

Section Synonyms.

Context `{WN : WordNet} `{SO : SetOrder}.

Variable word : string.

Lemma add_lemma_acceptable (X : gset string) (name : string) :
  set_Forall (acceptable_synonym word) X ->
  set_Forall (acceptable_synonym word) (add_lemma word X name).
Proof.
  intros HX. unfold add_lemma.
  destruct (negb (String.eqb (replace_char "_" " " name) word) &&
            (length (split (replace_char "_" " " name)) =? 1)%nat) eqn:Hc;
    [| exact HX].
  apply andb_true_iff in Hc as [Hne Hlen].
  apply negb_true_iff, String.eqb_neq in Hne. apply Nat.eqb_eq in Hlen.
  apply set_Forall_union; [| exact HX].
  apply set_Forall_singleton. split; assumption.
Qed.

Lemma add_lemmas_acceptable (names : list string) (X : gset string) :
  set_Forall (acceptable_synonym word) X ->
  set_Forall (acceptable_synonym word) (fold_left (add_lemma word) names X).
Proof.
  revert X. induction names as [|name names IH]; intros X HX; simpl.
  - exact HX.
  - apply IH, add_lemma_acceptable, HX.
Qed.

Lemma collect_acceptable (syns : list synset) (X Y : gset string) :
  set_Forall (acceptable_synonym word) X ->
  collect_synonyms word X syns = Some Y ->
  set_Forall (acceptable_synonym word) Y.
Proof.
  revert X. induction syns as [|syn syns IH]; intros X HX; simpl.
  - intros [= <-]. exact HX.
  - destruct (wn_lemma_names syn) as [names|]; [| discriminate].
    apply IH, add_lemmas_acceptable, HX.
Qed.

Lemma collect_raises (syns : list synset) (X : gset string) :
  collect_synonyms word X syns = None <->
  exists syn, syn ∈ syns /\ wn_lemma_names syn = None.
Proof.
  revert X. induction syns as [|syn syns IH]; intros X; simpl.
  - split; [discriminate | intros (syn & Hin & _); inversion Hin].
  - destruct (wn_lemma_names syn) as [names|] eqn:Hn.
    + rewrite IH. split; intros (s & Hin & Hs).
      * exists s. split; [now right | exact Hs].
      * apply elem_of_cons in Hin as [-> | Hin]; [congruence | eauto].
    + split; [| reflexivity]. intros _. exists syn. split; [left | exact Hn].
Qed.

Lemma get_synonyms_try_raises :
  get_synonyms_try word = None <-> lookup_fails word.
Proof.
  unfold get_synonyms_try, lookup_fails.
  destruct (wn_synsets word) as [syns|] eqn:Hs.
  - destruct (collect_synonyms word ∅ syns) as [Y|] eqn:Hc.
    + split; [discriminate |].
      intros [Hf | (syns' & syn & [= <-] & Hin & Hn)]; [discriminate |].
      assert (collect_synonyms word ∅ syns = None) by (apply collect_raises; eauto).
      congruence.
    + split; [| reflexivity]. intros _. right.
      apply collect_raises in Hc as (syn & Hin & Hn). eauto.
  - split; [now left | reflexivity].
Qed.

Lemma set_to_list_NoDup (X : gset string) : NoDup (set_to_list X).
Proof. rewrite set_to_list_perm. apply NoDup_elements. Qed.

Lemma set_to_list_elem (X : gset string) (s : string) :
  s ∈ set_to_list X <-> s ∈ X.
Proof. rewrite set_to_list_perm. apply elem_of_elements. Qed.

Lemma get_synonyms_try_spec (l : list string) :
  get_synonyms_try word = Some l ->
  (length l <= 3)%nat /\ NoDup l /\ Forall (acceptable_synonym word) l.
Proof.
  unfold get_synonyms_try.
  destruct (wn_synsets word) as [syns|]; [| discriminate].
  destruct (collect_synonyms word ∅ syns) as [Y|] eqn:Hc; [| discriminate].
  intros [= <-]. split; [rewrite length_take; lia |]. split.
  - eapply sublist_NoDup; [apply set_to_list_NoDup | apply sublist_take].
  - apply Forall_forall. intros s Hs.
    apply (subseteq_take 3), set_to_list_elem in Hs.
    refine (collect_acceptable syns ∅ Y _ Hc s Hs).
    intros x Hx. exfalso. revert Hx. apply not_elem_of_empty.
Qed.

End Synonyms.

Lemma get_synonyms_dummy `{SO : SetOrder} (word : string) :
  @get_synonyms DummyWordnet SO word = [].
Proof.
  unfold get_synonyms, get_synonyms_try. simpl.
  assert (H0 : set_to_list ∅ = []).
  { apply Permutation_nil_r. rewrite set_to_list_perm.
    now rewrite elements_empty. }
  now rewrite H0.
Qed.

(** C6.  [get_synonyms] is a total function that returns at most three
    strings, no two equal, each different from the word and of exactly one
    word.  A lookup that raises gives the empty list, and so does every
    lookup through the stand-in dictionary used when the data is missing. *)
Theorem get_synonyms_spec `{WN : WordNet} `{SO : SetOrder} (word : string) :
  (length (get_synonyms word) <= 3)%nat /\
  NoDup (get_synonyms word) /\
  Forall (acceptable_synonym word) (get_synonyms word) /\
  (lookup_fails word -> get_synonyms word = []) /\
  @get_synonyms DummyWordnet SO word = [].
Proof.
  split; [| split; [| split; [| split; [| apply get_synonyms_dummy]]]];
    unfold get_synonyms;
    destruct (get_synonyms_try word) as [l|] eqn:Htry;
    try (destruct (get_synonyms_try_spec word l Htry) as (Hlen & Hnd & Hacc));
    try assumption; try (simpl; lia); try constructor; try reflexivity.
  intros Hf. apply get_synonyms_try_raises in Hf. congruence.
Qed.

Lemma get_synonyms_spec_witness :
  @lookup_fails SampleWordnet "broken" /\
  @get_synonyms SampleWordnet ElementsOrder "broken" = [].
Proof.
  assert (Hf : @lookup_fails SampleWordnet "broken") by (left; reflexivity).
  split; [exact Hf |].
  exact (proj1 (proj2 (proj2 (proj2
           (@get_synonyms_spec SampleWordnet ElementsOrder "broken")))) Hf).
Defined.

(** ** [generate_improvement_suggestions] *)

Section Suggestions.

Lemma first_seen_snoc (l : list string) (x : string) :
  first_seen (l ++ [x]) =
  if existsb (String.eqb x) (first_seen l) then first_seen l
  else first_seen l ++ [x].
Proof. unfold first_seen. now rewrite fold_left_app. Qed.

Lemma existsb_eqb_elem (x : string) (l : list string) :
  existsb (String.eqb x) l = true <-> x ∈ l.
Proof.
  rewrite existsb_exists. split.
  - intros (y & Hin & Heq). apply String.eqb_eq in Heq as ->.
    now apply list_elem_of_In.
  - intros Hin. exists x. split; [now apply list_elem_of_In |].
    apply String.eqb_refl.
Qed.

Lemma first_seen_elem (l : list string) (x : string) :
  x ∈ first_seen l <-> x ∈ l.
Proof.
  induction l as [|y l IH] using rev_ind.
  - reflexivity.
  - rewrite first_seen_snoc, elem_of_app, list_elem_of_singleton, <- IH.
    destruct (existsb (String.eqb y) (first_seen l)) eqn:Hy.
    + apply existsb_eqb_elem in Hy. split; [tauto |].
      intros [H | ->]; assumption.
    + rewrite elem_of_app, list_elem_of_singleton. tauto.
Qed.

Lemma first_seen_NoDup (l : list string) : NoDup (first_seen l).
Proof.
  induction l as [|y l IH] using rev_ind.
  - constructor.
  - rewrite first_seen_snoc.
    destruct (existsb (String.eqb y) (first_seen l)) eqn:Hy; [exact IH |].
    apply NoDup_app. split; [exact IH |]. split.
    + intros x Hx Hx'. apply list_elem_of_singleton in Hx' as ->.
      apply existsb_eqb_elem in Hx. congruence.
    + apply NoDup_singleton.
Qed.

Lemma missing_in_snoc (cat : string) (p : list missing_kw) (kw : missing_kw) :
  missing_in cat (p ++ [kw]) =
  missing_in cat p ++ (if String.eqb (m_category kw) cat then [kw] else []).
Proof. unfold missing_in. now rewrite List.filter_app. Qed.

Lemma missing_in_nil (cat : string) (p : list missing_kw) :
  cat ∉ map m_category p -> missing_in cat p = [].
Proof.
  unfold missing_in. induction p as [|kw p IH]; simpl; [reflexivity |].
  intros Hnot. destruct (String.eqb (m_category kw) cat) eqn:He.
  - apply String.eqb_eq in He. exfalso. apply Hnot. rewrite He. left.
  - apply IH. intros Hin. apply Hnot. now right.
Qed.

Lemma missing_in_nonempty (cat : string) (p : list missing_kw) :
  cat ∈ map m_category p -> missing_in cat p <> [].
Proof.
  unfold missing_in. induction p as [|kw p IH]; simpl.
  - intros Hin. inversion Hin.
  - intros Hin. destruct (String.eqb (m_category kw) cat) eqn:He;
      [discriminate |].
    apply IH. apply elem_of_cons in Hin as [-> | Hin]; [| exact Hin].
    rewrite String.eqb_refl in He. discriminate.
Qed.

(** One step of the grouping loop on a dictionary with distinct keys. *)
Lemma group_add_keys (kw : missing_kw) (p : list missing_kw)
    (cs : list string) :
  NoDup cs ->
  group_add kw (map (fun c => (c, missing_in c p)) cs) =
  map (fun c => (c, missing_in c (p ++ [kw]))) cs ++
  (if existsb (String.eqb (m_category kw)) cs then []
   else [(m_category kw, [kw])]).
Proof.
  induction cs as [|c cs IH]; intros Hnd; [reflexivity |].
  apply NoDup_cons in Hnd as [Hc Hnd]. cbn [map group_add existsb].
  rewrite missing_in_snoc, (String.eqb_sym (m_category kw) c).
  destruct (String.eqb c (m_category kw)) eqn:He; cbn [orb].
  - apply String.eqb_eq in He. subst c. rewrite app_nil_r.
    cbn [app]. f_equal. apply map_ext_in. intros c' Hin.
    rewrite missing_in_snoc.
    destruct (String.eqb (m_category kw) c') eqn:He'; [| now rewrite app_nil_r].
    apply String.eqb_eq in He'. subst c'. exfalso.
    now apply Hc, list_elem_of_In.
  - rewrite app_nil_r, (IH Hnd). reflexivity.
Qed.

Lemma group_by_category_spec (missing : list missing_kw) :
  group_by_category missing =
  map (fun c => (c, missing_in c missing))
      (first_seen (map m_category missing)).
Proof.
  induction missing as [|kw p IH] using rev_ind; [reflexivity |].
  unfold group_by_category in *. rewrite fold_left_app. cbn [fold_left].
  rewrite IH, (group_add_keys kw p _ (first_seen_NoDup _)).
  rewrite map_app. cbn [map]. rewrite first_seen_snoc.
  destruct (existsb (String.eqb (m_category kw))
              (first_seen (map m_category p))) eqn:Hex.
  - now rewrite app_nil_r.
  - rewrite map_app. cbn [map]. do 3 f_equal.
    rewrite missing_in_snoc, String.eqb_refl, missing_in_nil; [reflexivity |].
    rewrite <- first_seen_elem, <- existsb_eqb_elem. congruence.
Qed.

Lemma cited_nonempty (n : nat) (l : list missing_kw) :
  l <> [] -> nonempty (cited (S n) l) = true.
Proof. destruct l; [congruence | reflexivity]. Qed.

(** For a category that does occur, the loop body emits what the
    specification says; its emptiness tests never fail. *)
Lemma category_suggestion_spec (missing : list missing_kw) (c : string) :
  c ∈ map m_category missing ->
  category_suggestion (c, missing_in c missing) = suggestion_for c missing.
Proof.
  intros Hin. apply missing_in_nonempty in Hin.
  unfold category_suggestion, suggestion_for,
    Technical_Skills, Tools_Technologies, Soft_Skills.
  rewrite !(cited_nonempty _ _ Hin). reflexivity.
Qed.

Lemma flat_map_map_on {A B C : Type} (f : B -> list C) (g : A -> B)
    (h : A -> list C) (l : list A) :
  (forall x, x ∈ l -> f (g x) = h x) ->
  flat_map f (map g l) = flat_map h l.
Proof.
  induction l as [|x l IH]; intros H; simpl; [reflexivity |].
  rewrite (H x), IH; [reflexivity | | left].
  intros y Hy. apply H. now right.
Qed.


End Suggestions.

(** C7.  The suggestions are the category suggestions, one for each of
    the three named categories that occurs among the missing keywords, in
    the order the categories first appear and citing the first three
    (technical, tools) or two (soft skills) keywords of the category, with
    nothing for any other category; then exactly one severity suggestion,
    chosen by the number of missing keywords.  The list is never empty. *)
Theorem generate_improvement_suggestions_spec (missing : list missing_kw)
    (found : list found_kw) :
  generate_improvement_suggestions missing found =
    category_suggestions missing ++
    [if (10 <? length missing)%nat then major_revision
     else if (5 <? length missing)%nat then moderate_improvements
     else good_match] /\
  (1 <= length (generate_improvement_suggestions missing found))%nat /\
  generate_improvement_suggestions [] found = [good_match].
Proof.
  assert (Heq : generate_improvement_suggestions missing found =
                category_suggestions missing ++
                [severity_suggestion (length missing)]).
  { unfold generate_improvement_suggestions, category_suggestions.
    rewrite group_by_category_spec. f_equal.
    apply flat_map_map_on. intros c Hc.
    apply category_suggestion_spec. now apply first_seen_elem. }
  split; [exact Heq |]. split; [| reflexivity].
  rewrite Heq, length_app. simpl. lia.
Qed.

(** ** Cleaned text holds no capital letter *)

Section CleanText.

Variable P : ascii -> Prop.

Lemma chars_app (a b : string) : chars (a +:+ b) = chars a ++ chars b.
Proof.
  induction a as [|c a IH]; [reflexivity |].
  rewrite append_cons. simpl. now rewrite IH.
Qed.

Lemma chars_length (s : string) : length (chars s) = String.length s.
Proof. induction s as [|c s IH]; simpl; [reflexivity | now rewrite IH]. Qed.




End CleanText.

Lemma char_lower_not_upper (c : ascii) : is_upper (char_lower c) = false.
Proof. ascii_cases c; reflexivity. Qed.

Lemma lower_not_upper (s : string) :
  Forall (fun c => is_upper c = false) (chars (lower s)).
Proof.
  induction s as [|c s IH]; simpl; constructor;
    [apply char_lower_not_upper | exact IH].
Qed.


(** ** The word scanner *)

Section Scanner.

Lemma compile_word_pattern : compile word_pattern = Some word_items.
Proof. reflexivity. Qed.

Lemma word_class_alpha (c : ascii) :
  atom_matches false (Class [("a", "z"); ("A", "Z")]%char) c = is_alpha c.
Proof. ascii_cases c; reflexivity. Qed.

Lemma alpha_is_word (c : ascii) : is_alpha c = true -> is_word c = true.
Proof. unfold is_word. intros ->. reflexivity. Qed.

Lemma last_from_app (prev : option ascii) (a b : string) :
  last_from prev (a +:+ b) = last_from (last_from prev a) b.
Proof.
  revert prev. induction a as [|c a IH]; intros prev; [reflexivity |].
  rewrite append_cons. simpl. apply IH.
Qed.

Lemma last_from_some (prev : option ascii) (pre : string)
    (Q : ascii -> bool) :
  pre <> "" -> forallb Q (chars pre) = true ->
  exists c, last_from prev pre = Some c /\ Q c = true.
Proof.
  revert prev. induction pre as [|c pre IH]; intros prev Hne Hall;
    [congruence |].
  simpl in Hall. apply andb_true_iff in Hall as [Hc Hall]. simpl.
  destruct pre as [|c' pre]; [simpl; eauto |].
  apply IH; [discriminate | exact Hall].
Qed.

Lemma str_take_app (pre rest : string) :
  str_take (String.length pre) (pre +:+ rest) = pre.
Proof.
  induction pre as [|c pre IH].
  - now destruct rest.
  - rewrite append_cons. cbn [String.length str_take]. now rewrite IH.
Qed.

(** What a successful repetition consumed. *)
Lemma rep_sound (m : ascii -> bool) (k : matcher) (s : string) :
  forall (n : nat) (prev : option ascii) (j : nat),
  rep m k n prev s = Some j ->
  exists (pre rest : string) (j' : nat),
    s = pre +:+ rest /\ j = (String.length pre + j')%nat /\
    (n <= String.length pre)%nat /\ forallb m (chars pre) = true /\
    k (last_from prev pre) rest = Some j'.
Proof.
  assert (Hstop : forall n prev s' j,
            match n with O => k prev s' | S _ => None end = Some j ->
            exists pre rest j',
              s' = pre +:+ rest /\ j = (String.length pre + j')%nat /\
              (n <= String.length pre)%nat /\ forallb m (chars pre) = true /\
              k (last_from prev pre) rest = Some j').
  { intros n prev s' j H. destruct n; [| discriminate].
    exists "", s', j. repeat split; auto. }
  induction s as [|c s IH]; intros n prev j H; cbn [rep] in H.
  - now apply Hstop.
  - destruct (m c) eqn:Hc; [| now apply Hstop].
    destruct (rep m k (pred n) (Some c) s) as [j0|] eqn:Hr;
      [| now apply Hstop].
    injection H as <-.
    destruct (IH _ _ _ Hr) as (pre & rest & j' & -> & -> & Hn & Hall & Hk).
    exists (String c pre), rest, j'. rewrite append_cons. simpl.
    rewrite Hc. repeat split; auto. lia.
Qed.

(** A match of the word pattern is a run of at least three letters with
    no word character on either side. *)
Lemma word_match_sound (prev : option ascii) (s : string) (j : nat) :
  match_items false word_items prev s = Some j ->
  exists pre rest : string,
    s = pre +:+ rest /\ j = String.length pre /\
    (3 <= String.length pre)%nat /\ forallb is_alpha (chars pre) = true /\
    word_before prev = false /\ word_after rest = false.
Proof.
  unfold word_items. cbn [match_items].
  destruct (boundary prev s) eqn:Hb; [| discriminate].
  intros H. apply rep_sound in H
    as (pre & rest & j' & -> & -> & Hn & Hall & Hk).
  assert (Halpha : forallb is_alpha (chars pre) = true).
  { apply forallb_forall. intros c Hc. rewrite <- word_class_alpha.
    revert c Hc. now apply forallb_forall. }
  assert (Hne : pre <> "") by (destruct pre; [simpl in Hn; lia | discriminate]).
  destruct (boundary (last_from prev pre) rest) eqn:Hb'; [| discriminate].
  injection Hk as <-.
  exists pre, rest. repeat split; auto; try lia.
  - destruct pre as [|c pre]; [congruence |].
    simpl in Halpha. apply andb_true_iff in Halpha as [Hc _].
    unfold boundary in Hb. rewrite append_cons in Hb. simpl in Hb.
    rewrite (alpha_is_word c Hc) in Hb. now destruct (word_before prev).
  - destruct (last_from_some prev pre is_alpha Hne Halpha) as (c & Hl & Hc).
    unfold boundary in Hb'. rewrite Hl in Hb'. simpl in Hb'.
    rewrite (alpha_is_word c Hc) in Hb'. now destruct (word_after rest).
Qed.

Lemma last_char_snoc (done : string) (c : ascii) :
  last_char (done +:+ String c "") = Some c.
Proof. unfold last_char. now rewrite last_from_app. Qed.

Lemma findall_word_sound (s : string) :
  forall (skip : nat) (done t : string),
  t ∈ findall_from word_items skip (last_char done) s ->
  (3 <= String.length t)%nat /\ forallb is_alpha (chars t) = true /\
  exists pre post : string,
    done +:+ s = pre +:+ t +:+ post /\
    word_before (last_char pre) = false /\ word_after post = false.
Proof.
  induction s as [|c s IH]; intros skip done t Ht.
  - destruct skip; cbn [findall_from] in Ht; [| inversion Ht].
    destruct (match_items false word_items (last_char done) "") as [j|] eqn:Hm;
      [| inversion Ht].
    apply word_match_sound in Hm as (pre & rest & Hs & _ & Hlen & _).
    destruct pre; [simpl in Hlen; lia | discriminate].
  - assert (Hrec : forall n, t ∈ findall_from word_items n (Some c) s ->
              (3 <= String.length t)%nat /\ forallb is_alpha (chars t) = true /\
              exists pre post : string,
                done +:+ String c s = pre +:+ t +:+ post /\
                word_before (last_char pre) = false /\ word_after post = false).
    { intros n Hn. rewrite <- (last_char_snoc done c) in Hn.
      apply IH in Hn as (H3 & Ha & pre & post & Heq & Hw).
      split; [exact H3 |]. split; [exact Ha |]. exists pre, post.
      split; [| exact Hw]. rewrite <- Heq, append_assoc. reflexivity. }
    destruct skip; cbn [findall_from] in Ht; [| now apply (Hrec skip)].
    destruct (match_items false word_items (last_char done) (String c s))
      as [j|] eqn:Hm; [| now apply (Hrec 0%nat)].
    apply elem_of_cons in Ht as [-> | Ht]; [| now apply (Hrec (pred j))].
    apply word_match_sound in Hm
      as (pre & rest & Hs & -> & Hlen & Halpha & Hwb & Hwa).
    rewrite Hs, str_take_app. split; [exact Hlen |]. split; [exact Halpha |].
    exists done, rest. auto.
Qed.

(** Every word [re.findall] returns stands as a word in the text. *)
Lemma re_findall_word_sound (text t : string) :
  t ∈ re_findall word_pattern text ->
  (3 <= String.length t)%nat /\ forallb is_alpha (chars t) = true /\
  occurs_as_word t text.
Proof.
  unfold re_findall. rewrite compile_word_pattern.
  change None with (last_char ""). intros Ht.
  apply findall_word_sound in Ht as (H3 & Ha & pre & post & Heq & Hw).
  split; [exact H3 |]. split; [exact Ha |]. exists pre, post. auto.
Qed.

End Scanner.

(** ** The counter and its ranking *)

Section Ranking.

Lemma occurrences_snoc (k w : string) (p : list string) :
  occurrences k (p ++ [w]) =
  (occurrences k p + (if String.eqb k w then 1 else 0))%nat.
Proof.
  unfold occurrences. rewrite List.filter_app, length_app. simpl.
  now destruct (String.eqb k w).
Qed.

Lemma occurrences_zero (k : string) (p : list string) :
  k ∉ p -> occurrences k p = 0%nat.
Proof.
  unfold occurrences. induction p as [|x p IH]; simpl; [reflexivity |].
  intros Hnot. destruct (String.eqb k x) eqn:He.
  - apply String.eqb_eq in He. subst x. exfalso. apply Hnot. left.
  - apply IH. intros Hin. apply Hnot. now right.
Qed.

(** One step of [Counter] on a counter with distinct keys. *)
Lemma counter_incr_keys (w : string) (p cs : list string) :
  NoDup cs ->
  counter_incr w (map (fun k => (k, occurrences k p)) cs) =
  map (fun k => (k, occurrences k (p ++ [w]))) cs ++
  (if existsb (String.eqb w) cs then [] else [(w, 1%nat)]).
Proof.
  induction cs as [|c cs IH]; intros Hnd; [reflexivity |].
  apply NoDup_cons in Hnd as [Hc Hnd]. cbn [map counter_incr existsb].
  rewrite occurrences_snoc, (String.eqb_sym w c).
  destruct (String.eqb c w) eqn:He; cbn [orb].
  - apply String.eqb_eq in He. subst c. rewrite app_nil_r.
    f_equal; [f_equal; lia |]. apply map_ext_in. intros c' Hin.
    rewrite occurrences_snoc.
    destruct (String.eqb c' w) eqn:He'; [| f_equal; lia].
    apply String.eqb_eq in He'. subst c'. exfalso.
    now apply Hc, list_elem_of_In.
  - rewrite (IH Hnd), Nat.add_0_r. reflexivity.
Qed.

(** The counter lists the distinct words in the order of their first
    occurrence, each with its number of occurrences. *)
Lemma Counter_spec (toks : list string) :
  Counter toks = map (fun k => (k, occurrences k toks)) (first_seen toks).
Proof.
  induction toks as [|w p IH] using rev_ind; [reflexivity |].
  unfold Counter in *. rewrite fold_left_app. cbn [fold_left].
  rewrite IH, (counter_incr_keys w p _ (first_seen_NoDup _)), first_seen_snoc.
  destruct (existsb (String.eqb w) (first_seen p)) eqn:Hex.
  - now rewrite app_nil_r.
  - rewrite map_app. cbn [map]. do 3 f_equal.
    rewrite occurrences_snoc, String.eqb_refl, occurrences_zero; [reflexivity |].
    rewrite <- first_seen_elem, <- existsb_eqb_elem. congruence.
Qed.

Lemma counter_get_map (f : string -> nat) (cs : list string) (k : string) :
  k ∈ cs -> counter_get (map (fun k => (k, f k)) cs) k = f k.
Proof.
  induction cs as [|c cs IH]; intros Hin; [inversion Hin |].
  cbn [map counter_get]. destruct (String.eqb c k) eqn:He.
  - apply String.eqb_eq in He. now subst c.
  - apply IH. apply elem_of_cons in Hin as [-> | Hin]; [| exact Hin].
    rewrite String.eqb_refl in He. discriminate.
Qed.

Lemma insert_desc_perm (x : string * nat) (l : list (string * nat)) :
  insert_desc x l ≡ₚ x :: l.
Proof.
  induction l as [|y l IH]; simpl; [reflexivity |].
  destruct (snd x <? snd y)%nat; [| reflexivity].
  rewrite IH. apply perm_swap.
Qed.

Lemma sort_desc_perm (l : list (string * nat)) : sort_desc l ≡ₚ l.
Proof.
  induction l as [|x l IH]; simpl; [reflexivity |].
  now rewrite insert_desc_perm, IH.
Qed.

Variable toks : list string.

Local Abbreviation earlier := (item_earlier toks).

Lemma item_before_trans (a b c : string * nat) :
  item_before toks a b -> item_before toks b c -> item_before toks a c.
Proof. unfold item_before. lia. Qed.

(** Inserting an item that precedes all of [l] in the token stream keeps
    the ranking: it passes only items of a strictly larger count. *)
Lemma insert_desc_sorted (x : string * nat) (l : list (string * nat)) :
  StronglySorted (item_before toks) l -> Forall (earlier x) l ->
  StronglySorted (item_before toks) (insert_desc x l).
Proof.
  induction l as [|y l IH]; intros Hs He; simpl.
  - repeat constructor.
  - apply StronglySorted_cons in Hs as [Hy Hs].
    apply Forall_cons in He as [Hxy He].
    destruct (snd x <? snd y)%nat eqn:Hlt.
    + apply Nat.ltb_lt in Hlt. apply StronglySorted_cons. split.
      * rewrite insert_desc_perm. constructor; [now left | exact Hy].
      * now apply IH.
    + apply Nat.ltb_ge in Hlt.
      assert (Hb : item_before toks x y).
      { unfold item_before, item_earlier in *. lia. }
      apply StronglySorted_cons. split.
      * constructor; [exact Hb |].
        eapply Forall_impl; [exact Hy |].
        intros z Hz. now apply (item_before_trans x y z).
      * apply StronglySorted_cons. split; assumption.
Qed.

Lemma sort_desc_sorted (l : list (string * nat)) :
  StronglySorted earlier l -> StronglySorted (item_before toks) (sort_desc l).
Proof.
  induction l as [|x l IH]; intros Hs; simpl; [constructor |].
  apply StronglySorted_cons in Hs as [Hx Hs].
  apply insert_desc_sorted; [now apply IH |].
  now rewrite sort_desc_perm.
Qed.

End Ranking.

Section FirstOccurrence.

Lemma index_of_app_in (k : string) (p q : list string) :
  k ∈ p -> index_of k (p ++ q) = index_of k p /\
            (index_of k p < length p)%nat.
Proof.
  induction p as [|x p IH]; intros Hin; [inversion Hin |]. simpl.
  destruct (String.eqb x k) eqn:He; [split; [reflexivity | lia] |].
  apply elem_of_cons in Hin as [-> | Hin].
  - rewrite String.eqb_refl in He. discriminate.
  - destruct (IH Hin) as [-> Hlt]. split; [reflexivity | lia].
Qed.

Lemma index_of_app_notin (k : string) (p q : list string) :
  k ∉ p -> index_of k (p ++ q) = (length p + index_of k q)%nat.
Proof.
  induction p as [|x p IH]; intros Hnot; [reflexivity |]. simpl.
  destruct (String.eqb x k) eqn:He.
  - apply String.eqb_eq in He. subst x. exfalso. apply Hnot. left.
  - rewrite IH; [reflexivity |]. intros Hin. apply Hnot. now right.
Qed.

(** The distinct words are listed by increasing first position, also
    when the stream goes on. *)
Lemma first_seen_sorted (p q : list string) :
  StronglySorted
    (fun a b => (index_of a (p ++ q) < index_of b (p ++ q))%nat)
    (first_seen p).
Proof.
  revert q. induction p as [|w p IH] using rev_ind; intros q; [constructor |].
  rewrite first_seen_snoc, <- app_assoc.
  destruct (existsb (String.eqb w) (first_seen p)) eqn:Hex; [apply IH |].
  apply StronglySorted_app_2; [| apply IH | repeat constructor].
  intros a b Ha Hb. apply list_elem_of_singleton in Hb as ->.
  rewrite first_seen_elem in Ha.
  destruct (index_of_app_in a p ([w] ++ q) Ha) as [-> Hlt].
  rewrite index_of_app_notin; [lia |].
  rewrite <- first_seen_elem, <- existsb_eqb_elem. congruence.
Qed.

End FirstOccurrence.

(** ** [extract_keywords] *)

Section Extract.

Context `{WN : WordNet} `{SO : SetOrder}.

Variable text : string.

Local Abbreviation toks := (filtered_words text).

Lemma counter_item (x : string * nat) :
  x ∈ Counter toks ->
  fst x ∈ toks /\ snd x = occurrences (fst x) toks /\
  counter_get (Counter toks) (fst x) = snd x.
Proof.
  rewrite Counter_spec. intros Hx.
  apply list_elem_of_In, in_map_iff in Hx as (k & <- & Hk).
  apply list_elem_of_In in Hk. simpl.
  split; [now apply first_seen_elem |]. split; [reflexivity |].
  now apply (counter_get_map (fun k => occurrences k toks)).
Qed.

Lemma top_item (n : nat) (x : string * nat) :
  x ∈ most_common n (Counter toks) -> x ∈ Counter toks.
Proof.
  unfold most_common. intros Hx. apply (subseteq_take n) in Hx.
  now rewrite sort_desc_perm in Hx.
Qed.

(** The entries, built from the ranked items themselves. *)
Lemma extract_keywords_eq :
  extract_keywords text =
  map (fun x => KwInfo (fst x) (categorize_keyword (fst x))
                  (get_synonyms (fst x)) (snd x))
      (most_common 30 (Counter toks)).
Proof.
  unfold extract_keywords. rewrite map_map.
  apply map_ext_in. intros x Hx. f_equal.
  apply list_elem_of_In, top_item, counter_item in Hx. tauto.
Qed.


Lemma filtered_word (k : string) :
  k ∈ toks ->
  k ∈ re_findall word_pattern (clean_text text) /\ k ∉ stop_words.
Proof.
  unfold filtered_words, is_stop_word. intros Hk.
  apply list_elem_of_In, filter_In in Hk as [Hin Hstop].
  split; [now apply list_elem_of_In |].
  now apply negb_true_iff, bool_decide_eq_false in Hstop.
Qed.


End Extract.



(** ** The pipeline on a sample posting *)

Section Scenario.

Local Abbreviation job :=
  "Looking for strong Python programming and SQL database skills with excellent communication and teamwork abilities".

Local Abbreviation resume := "Experienced in coding, SQL, and leadership".

Example scan_example :
  re_findall word_pattern
    (clean_text "Strong Python3 and  SQL database_x skills, AI, ab2cde") =
  ["strong"; "and"; "sql"; "skills"].
Proof. reflexivity. Qed.

Example ranking_example :
  map ranking_view
    (@extract_keywords DummyWordnet ElementsOrder
       "go go rust rust zig and the Rust") =
  [("rust", "Tools & Technologies", 3%nat);
   ("zig", "Tools & Technologies", 1%nat)].
Proof. vm_compute. reflexivity. Qed.

Example scenario_keywords :
  map keyword (@extract_keywords SampleWordnet ElementsOrder job) =
  ["looking"; "strong"; "python"; "programming"; "sql"; "database";
   "skills"; "excellent"; "communication"; "teamwork"; "abilities"].
Proof. vm_compute. reflexivity. Qed.

Example scenario_match :
  (fun r => (map f_keyword (found_keywords r),
             map f_matched_synonym (found_keywords r),
             length (missing_keywords r), total_keywords r,
             exact_matches r, synonym_matches r,
             Qeq_bool (match_percentage r) (170 # 11)))
    <$> calculate_match resume
          (@extract_keywords SampleWordnet ElementsOrder job) =
  Some (["programming"; "sql"], [Some "coding"; None],
        9%nat, 11%nat, 1%nat, 1%nat, true).
Proof. vm_compute. reflexivity. Qed.

Example scenario_binary64 :
  weighted_score_binary64 1 1 11 = 0x1.ee8ba2e8ba2e8p+3%float.
Proof. vm_compute. reflexivity. Qed.

Example scenario_suggestions :
  (fun r => generate_improvement_suggestions
              (missing_keywords r) (found_keywords r))
    <$> calculate_match resume
          (@extract_keywords SampleWordnet ElementsOrder job) =
  Some
    ["**Learn tools**: Gain experience with looking, strong, skills through online courses or projects";
     "**Add technical skills**: Consider including python, database in your skills section";
     "**Moderate improvements**: Focus on adding the top missing keywords to your resume"].
Proof. vm_compute. reflexivity. Qed.

End Scenario.

(** * Further properties of the program *)

(** ** [clean_text] *)

Section CleanTextShape.

Lemma is_space_char_lower (c : ascii) : is_space (char_lower c) = is_space c.
Proof. ascii_cases c; reflexivity. Qed.



Lemma lower_spaces (s : string) :
  forallb is_space (chars (lower s)) = forallb is_space (chars s).
Proof.
  induction s as [|c s IH]; simpl; [reflexivity |].
  now rewrite is_space_char_lower, IH.
Qed.

Lemma flush_nil (cur : string) : flush cur = [] <-> cur = "".
Proof. unfold flush. destruct cur; simpl; split; congruence. Qed.

Lemma append_eq_nil (a b : string) : a +:+ b = "" -> a = "" /\ b = "".
Proof. destruct a; [simpl; auto | rewrite append_cons; discriminate]. Qed.

Lemma split_go_nil (s cur : string) :
  split_go cur s = [] <-> cur = "" /\ forallb is_space (chars s) = true.
Proof.
  revert cur. induction s as [|c s IH]; intros cur; simpl.
  - rewrite flush_nil. tauto.
  - destruct (is_space c); simpl.
    + split.
      * intros H. apply app_eq_nil in H as [Hf Hs].
        apply flush_nil in Hf. apply IH in Hs. tauto.
      * intros [-> Hs]. simpl. apply IH. auto.
    + rewrite IH. split; [| intros [_ H]; discriminate].
      intros [H _]. apply append_eq_nil in H as [_ H]. discriminate.
Qed.


(** The pieces [split] returns are not empty and hold no white space. *)
Lemma split_go_pieces (P : ascii -> Prop) (s cur : string) :
  Forall (fun c => is_space c = false /\ P c) (chars cur) ->
  Forall P (chars s) ->
  Forall (fun w => w <> "" /\
                   Forall (fun c => is_space c = false /\ P c) (chars w))
         (split_go cur s).
Proof.
  assert (Hflush : forall cur,
            Forall (fun c => is_space c = false /\ P c) (chars cur) ->
            Forall (fun w => w <> "" /\
                      Forall (fun c => is_space c = false /\ P c) (chars w))
                   (flush cur)).
  { intros cur' H. unfold flush. destruct cur'; simpl; [constructor |].
    constructor; [split; [discriminate | exact H] | constructor]. }
  revert cur. induction s as [|c s IH]; intros cur Hcur Hs; simpl.
  - now apply Hflush.
  - simpl in Hs. apply Forall_cons in Hs as [Hc Hs].
    destruct (is_space c) eqn:Hsp.
    + apply Forall_app. split; [now apply Hflush |].
      apply IH; [constructor | exact Hs].
    + apply IH; [| exact Hs]. rewrite chars_app. apply Forall_app.
      split; [exact Hcur | now repeat constructor].
Qed.

Lemma clean_text_words (text : string) :
  Forall clean_word (split (lower text)).
Proof.
  unfold split. apply split_go_pieces; [constructor | apply lower_not_upper].
Qed.



Lemma join_nil (ws : list string) :
  Forall clean_word ws -> join " " ws = "" -> ws = [].
Proof.
  destruct ws as [|w ws]; [reflexivity |]. intros Hws Hj.
  apply Forall_cons in Hws as [[Hne _] _]. destruct ws as [|w' ws].
  - simpl in Hj. congruence.
  - change (join " " (w :: w' :: ws))
      with (w +:+ " " +:+ join " " (w' :: ws)) in Hj.
    apply append_eq_nil in Hj as [Hw _]. congruence.
Qed.

Lemma lstrip_nil (s : string) :
  lstrip s = "" <-> forallb is_space (chars s) = true.
Proof.
  induction s as [|c s IH]; simpl; [tauto |].
  destruct (is_space c); simpl; [exact IH |]. split; discriminate.
Qed.

Lemma rstrip_nil (s : string) :
  rstrip s = "" <-> forallb is_space (chars s) = true.
Proof.
  induction s as [|c s IH]; simpl; [tauto |].
  destruct (is_space c); simpl.
  - rewrite <- IH. destruct (rstrip s); simpl; split; congruence.
  - split; discriminate.
Qed.

Lemma lstrip_spaces (s : string) :
  forallb is_space (chars (lstrip s)) = true ->
  forallb is_space (chars s) = true.
Proof.
  induction s as [|c s IH]; simpl; [auto |].
  destruct (is_space c) eqn:Hc; simpl; [exact IH |].
  now rewrite Hc.
Qed.

End CleanTextShape.





Lemma blank_text (text : string) :
  (clean_text text = "" <-> forallb is_space (chars text) = true) /\
  (is_blank text = true <-> clean_text text = "").
Proof.
  assert (H1 : clean_text text = "" <-> forallb is_space (chars text) = true).
  { unfold clean_text. rewrite <- lower_spaces. split.
    - intros Hj. apply (join_nil _ (clean_text_words text)) in Hj.
      unfold split in Hj. apply split_go_nil in Hj. tauto.
    - intros Hs. assert (Hn : split (lower text) = [])
        by (apply split_go_nil; auto).
      now rewrite Hn. }
  split; [exact H1 |]. rewrite H1. unfold is_blank, strip.
  split.
  - intros Hb. apply lstrip_spaces, rstrip_nil.
    destruct (rstrip (lstrip text)); [reflexivity | discriminate].
  - intros Hs. apply lstrip_nil in Hs. now rewrite Hs.
Qed.


(** ** [calculate_match] on particular resumes *)

Section MatchOutcomes.

Variable rc : string.

Lemma classify_exact (kw : kw_info) :
  substring (keyword kw) rc -> classify rc kw = ExactMatch.
Proof. intros H. apply str_in_spec in H. unfold classify. now rewrite H. Qed.

Lemma classify_missing (kw : kw_info) :
  ~ substring (keyword kw) rc ->
  (forall s, s ∈ synonyms kw -> ~ substring s rc) ->
  classify rc kw = Missing.
Proof.
  intros Hk Hs. apply str_in_false in Hk. apply next_synonym_none_iff in Hs.
  unfold classify. now rewrite Hk, Hs.
Qed.

Lemma statuses_all_exact (kws : list kw_info) :
  Forall (fun kw => substring (keyword kw) rc) kws ->
  statuses rc kws = map (fun _ => ExactMatch) kws.
Proof.
  unfold statuses. induction 1 as [|kw kws Hkw _ IH]; simpl; [reflexivity |].
  now rewrite (classify_exact kw Hkw), IH.
Qed.

Lemma statuses_all_missing (kws : list kw_info) :
  Forall (fun kw => ~ substring (keyword kw) rc /\
                    forall s, s ∈ synonyms kw -> ~ substring s rc) kws ->
  statuses rc kws = map (fun _ => Missing) kws.
Proof.
  unfold statuses. induction 1 as [|kw kws [Hk Hs] _ IH]; simpl;
    [reflexivity |].
  now rewrite (classify_missing kw Hk Hs), IH.
Qed.

Lemma entries_all_exact (kws : list kw_info) :
  concat (zip_with missing_entry kws (map (fun _ => ExactMatch) kws)) = [] /\
  length (List.filter is_exact (map (fun _ => ExactMatch) kws)) = length kws /\
  length (List.filter is_synonym (map (fun _ => ExactMatch) kws)) = 0%nat.
Proof.
  induction kws as [|kw kws (IH1 & IH2 & IH3)]; simpl; [auto |].
  rewrite IH1, IH2, IH3. auto.
Qed.

Lemma entries_all_missing (kws : list kw_info) :
  concat (zip_with found_entry kws (map (fun _ => Missing) kws)) = [] /\
  length (List.filter is_exact (map (fun _ => Missing) kws)) = 0%nat /\
  length (List.filter is_synonym (map (fun _ => Missing) kws)) = 0%nat /\
  map m_keyword
      (concat (zip_with missing_entry kws (map (fun _ => Missing) kws))) =
    map keyword kws.
Proof.
  induction kws as [|kw kws (IH1 & IH2 & IH3 & IH4)]; simpl; [auto |].
  rewrite IH1, IH2, IH3, IH4. auto.
Qed.


Lemma found_keywords_sublist (kws : list kw_info) :
  map f_keyword (concat (zip_with found_entry kws (statuses rc kws)))
    `sublist_of` map keyword kws.
Proof.
  unfold statuses. induction kws as [|kw kws IH]; simpl; [constructor |].
  rewrite map_app. destruct (classify rc kw); simpl.
  - now apply sublist_skip.
  - now apply sublist_skip.
  - now apply sublist_cons.
Qed.

Lemma missing_keywords_sublist (kws : list kw_info) :
  map m_keyword (concat (zip_with missing_entry kws (statuses rc kws)))
    `sublist_of` map keyword kws.
Proof.
  unfold statuses. induction kws as [|kw kws IH]; simpl; [constructor |].
  rewrite map_app. destruct (classify rc kw); simpl.
  - now apply sublist_cons.
  - now apply sublist_cons.
  - now apply sublist_skip.
Qed.

Lemma keywords_partition (kws : list kw_info) :
  map f_keyword (concat (zip_with found_entry kws (statuses rc kws))) ++
  map m_keyword (concat (zip_with missing_entry kws (statuses rc kws)))
  ≡ₚ map keyword kws.
Proof.
  unfold statuses. induction kws as [|kw kws IH]; simpl; [reflexivity |].
  rewrite !map_app. destruct (classify rc kw); simpl.
  - now rewrite IH.
  - now rewrite IH.
  - rewrite <- IH. symmetry. apply Permutation_middle.
Qed.

End MatchOutcomes.

Lemma weighted_score_full (n : nat) :
  (0 < n)%nat -> (weighted_score n 0 n == 100)%Q.
Proof.
  intros Hn. unfold weighted_score. pose proof (nat_to_Q_pos n Hn) as Hq.
  change (nat_to_Q 0) with 0%Q. field. intros H0. rewrite H0 in Hq.
  now apply Qlt_irrefl in Hq.
Qed.

Lemma weighted_score_none (n : nat) : (weighted_score 0 0 n == 0)%Q.
Proof.
  unfold weighted_score, Qdiv. change (nat_to_Q 0) with 0%Q. ring.
Qed.

Lemma all_found_result (resume_text : string)
    (kws : list kw_info) :
  kws <> [] ->
  Forall (fun kw => substring (keyword kw) (clean_text resume_text)) kws ->
  exists r : match_result,
    calculate_match resume_text kws = Some r /\
    (match_percentage r == 100)%Q /\ missing_keywords r = [] /\
    exact_matches r = length kws /\ synonym_matches r = 0%nat.
Proof.
  intros Hne Hall. rewrite calculate_match_eq. eexists.
  split; [reflexivity |]. simpl.
  rewrite (statuses_all_exact _ kws Hall).
  destruct (entries_all_exact kws) as (H1 & H2 & H3). rewrite H1, H2, H3.
  assert (Hlen : (0 < length kws)%nat)
    by (destruct kws; [congruence | simpl; lia]).
  apply Nat.ltb_lt in Hlen as Hlt. rewrite Hlt.
  split; [now apply weighted_score_full | auto].
Qed.

(** X4.  When every keyword occurs in the cleaned resume, the score is
    100, nothing is missing and every match is exact. *)
Theorem calculate_match_all_found (resume_text : string)
    (kws : list kw_info) :
  kws <> [] ->
  Forall (fun kw => substring (keyword kw) (clean_text resume_text)) kws ->
  exists r : match_result,
    calculate_match resume_text kws = Some r /\
    (match_percentage r == 100)%Q /\ missing_keywords r = [] /\
    exact_matches r = length kws /\ synonym_matches r = 0%nat.
Proof. exact (all_found_result resume_text kws). Qed.

Lemma calculate_match_all_found_witness :
  exists r : match_result,
    calculate_match "Python and SQL"
      [KwInfo "python" "Technical Skills" [] 1;
       KwInfo "sql" "Technical Skills" [] 1] = Some r /\
    (match_percentage r == 100)%Q.
Proof.
  destruct (calculate_match_all_found "Python and SQL"
              [KwInfo "python" "Technical Skills" [] 1;
               KwInfo "sql" "Technical Skills" [] 1])
    as (r & Hr & Hp & _).
  - discriminate.
  - repeat constructor; apply str_in_spec; reflexivity.
  - exists r. split; assumption.
Defined.

(** X5.  When no keyword and no synonym occurs in the cleaned resume, the
    score is 0, nothing is found and every keyword is reported missing, in
    the order of the input. *)
Theorem calculate_match_none_found (resume_text : string)
    (kws : list kw_info) :
  Forall (fun kw =>
            ~ substring (keyword kw) (clean_text resume_text) /\
            forall s, s ∈ synonyms kw ->
                      ~ substring s (clean_text resume_text)) kws ->
  exists r : match_result,
    calculate_match resume_text kws = Some r /\
    (match_percentage r == 0)%Q /\ found_keywords r = [] /\
    exact_matches r = 0%nat /\ synonym_matches r = 0%nat /\
    map m_keyword (missing_keywords r) = map keyword kws.
Proof.
  intros Hall. rewrite calculate_match_eq. eexists.
  split; [reflexivity |]. simpl.
  rewrite (statuses_all_missing _ kws Hall).
  destruct (entries_all_missing kws) as (H1 & H2 & H3 & H4).
  rewrite H1, H2, H3, H4.
  split; [| auto]. destruct (0 <? length kws)%nat;
    [apply weighted_score_none | reflexivity].
Qed.

Lemma calculate_match_none_found_witness :
  exists r : match_result,
    calculate_match "Experienced cook"
      [KwInfo "python" "Technical Skills" ["snake"] 1] = Some r /\
    (match_percentage r == 0)%Q.
Proof.
  destruct (calculate_match_none_found "Experienced cook"
              [KwInfo "python" "Technical Skills" ["snake"] 1])
    as (r & Hr & Hp & _).
  - constructor; [| constructor]. split.
    + apply str_in_false. reflexivity.
    + intros s Hs. apply list_elem_of_singleton in Hs as ->.
      apply str_in_false. reflexivity.
  - exists r. split; assumption.
Defined.

(** X6.  Every keyword of the input is reported once, as found or as
    missing: the keywords of the two lists together are those of the
    input, and each list keeps the order of the input. *)
Theorem calculate_match_partition (resume_text : string)
    (kws : list kw_info) :
  exists r : match_result,
    calculate_match resume_text kws = Some r /\
    map f_keyword (found_keywords r) ++ map m_keyword (missing_keywords r)
      ≡ₚ map keyword kws /\
    map f_keyword (found_keywords r) `sublist_of` map keyword kws /\
    map m_keyword (missing_keywords r) `sublist_of` map keyword kws.
Proof.
  rewrite calculate_match_eq. eexists. split; [reflexivity |]. simpl.
  split; [apply keywords_partition |].
  split; [apply found_keywords_sublist | apply missing_keywords_sublist].
Qed.

Section ResumeChanges.













Variables rc1 rc2 : string.

Hypothesis grows : forall x, substring x rc1 -> substring x rc2.



End ResumeChanges.






(** ** More on [extract_keywords] *)

Section ExtractMore.

Context `{WN : WordNet} `{SO : SetOrder}.

Variable text : string.

Local Abbreviation toks := (filtered_words text).

Lemma counter_keys (l : list string) : map fst (Counter l) = first_seen l.
Proof.
  rewrite Counter_spec, map_map. simpl. apply map_id.
Qed.

Lemma take_drop_keys (n : nat) (l : list (string * nat)) :
  map fst l = map fst (take n l) ++ map fst (drop n l).
Proof. now rewrite <- map_app, take_drop. Qed.

Lemma sorted_keys_NoDup (l : list string) :
  NoDup (map fst (sort_desc (Counter l))).
Proof.
  assert (Hp : map fst (sort_desc (Counter l)) ≡ₚ map fst (Counter l))
    by (apply Permutation_map, sort_desc_perm).
  rewrite Hp, counter_keys. apply first_seen_NoDup.
Qed.

Lemma extract_keywords_keys :
  map keyword (extract_keywords text) =
  map fst (most_common 30 (Counter toks)).
Proof. rewrite extract_keywords_eq, map_map. reflexivity. Qed.

Lemma sorted_counter (l : list string) :
  StronglySorted (item_before l) (sort_desc (Counter l)).
Proof.
  apply sort_desc_sorted. rewrite Counter_spec.
  pose proof (first_seen_sorted l []) as Hfs. rewrite app_nil_r in Hfs.
  apply (StronglySorted_fmap (fun k => (k, occurrences k l))
           (fun a b => (index_of a l < index_of b l)%nat) (item_earlier l));
    [| exact Hfs].
  intros x y Hxy. exact Hxy.
Qed.

Lemma counter_has (l : list string) (w : string) :
  w ∈ l -> (w, occurrences w l) ∈ Counter l.
Proof.
  intros Hw. rewrite Counter_spec. apply list_elem_of_In, in_map_iff.
  exists w. split; [reflexivity |]. now apply list_elem_of_In, first_seen_elem.
Qed.

(** The facts about one entry that the later statements share. *)
Lemma extract_keywords_word (e : kw_info) :
  e ∈ extract_keywords text ->
  keyword e ∈ toks /\ category e = categorize_keyword (keyword e) /\
  synonyms e = get_synonyms (keyword e) /\
  count e = occurrences (keyword e) toks /\
  keyword e <> "" /\ forallb is_alpha (chars (keyword e)) = true /\
  substring (keyword e) (clean_text text).
Proof.
  rewrite extract_keywords_eq. intros He.
  apply list_elem_of_In, in_map_iff in He as (x & <- & Hx). simpl.
  apply list_elem_of_In, top_item, counter_item in Hx as (Hin & Hocc & _).
  split; [exact Hin |]. do 3 (split; [auto |]).
  apply filtered_word in Hin as [Hw _].
  apply re_findall_word_sound in Hw as (H3 & Ha & pre & post & Heq & _).
  split; [destruct (fst x); [simpl in H3; lia | discriminate] |].
  split; [exact Ha |]. exists pre, post. exact Heq.
Qed.

Lemma letters_category (w : string) :
  w <> "" -> forallb is_alpha (chars w) = true ->
  categorize_keyword w = Technical_Skills \/
  categorize_keyword w = Tools_Technologies.
Proof.
  intros Hne Hall. unfold categorize_keyword.
  destruct (any_match technical_patterns w); [now left |].
  assert (Ht : any_match tools_patterns w = true).
  { unfold any_match, tools_patterns. cbn [existsb].
    now rewrite (tools_first_matches w Hne Hall). }
  rewrite Ht. now right.
Qed.

Lemma findall_nil (items : list item) :
  findall_from items 0 None "" = [] \/
  exists t, findall_from items 0 None "" = [t].
Proof.
  simpl. destruct (match_items false items None ""); eauto.
Qed.

End ExtractMore.

(** X10.  No keyword is listed twice. *)
Theorem extract_keywords_distinct `{WN : WordNet} `{SO : SetOrder}
    (text : string) :
  NoDup (map keyword (extract_keywords text)).
Proof.
  rewrite extract_keywords_keys. unfold most_common.
  pose proof (sorted_keys_NoDup (filtered_words text)) as Hnd.
  rewrite (take_drop_keys 30) in Hnd. now apply NoDup_app in Hnd as [Hnd _].
Qed.

(** X11.  Every entry carries the category and the synonyms computed for
    its keyword, and the category is the technical or the tools one: the
    extractor never produces a soft-skills or other-skills entry. *)
Theorem extract_keywords_categories `{WN : WordNet} `{SO : SetOrder}
    (text : string) :
  Forall (fun e =>
            category e = categorize_keyword (keyword e) /\
            synonyms e = get_synonyms (keyword e) /\
            (category e = Technical_Skills \/
             category e = Tools_Technologies))
         (extract_keywords text).
Proof.
  apply Forall_forall. intros e He.
  apply extract_keywords_word in He as (_ & Hc & Hs & _ & Hne & Ha & _).
  split; [exact Hc |]. split; [exact Hs |]. rewrite Hc.
  now apply letters_category.
Qed.

(** X12.  The cut keeps the most frequent words: a counted word that is
    not among the keywords occurs no more often than any keyword, and
    then the list is full. *)
Theorem extract_keywords_keeps_top `{WN : WordNet} `{SO : SetOrder}
    (text w : string) :
  w ∈ filtered_words text ->
  w ∉ map keyword (extract_keywords text) ->
  length (extract_keywords text) = 30%nat /\
  Forall (fun e => (occurrences w (filtered_words text) <= count e)%nat)
         (extract_keywords text).
Proof.
  intros Hw Hnot. rewrite extract_keywords_keys in Hnot.
  unfold most_common in Hnot.
  pose proof (counter_has _ w Hw) as Hitem.
  rewrite <- sort_desc_perm,
    <- (take_drop 30 (sort_desc (Counter (filtered_words text)))) in Hitem.
  apply elem_of_app in Hitem as [Hitem | Hitem].
  { exfalso. apply Hnot. apply list_elem_of_In, in_map_iff.
    exists (w, occurrences w (filtered_words text)).
    split; [reflexivity | now apply list_elem_of_In]. }
  pose proof (sorted_counter (filtered_words text)) as Hs.
  rewrite <- (take_drop 30 (sort_desc (Counter (filtered_words text)))) in Hs.
  rewrite extract_keywords_eq. unfold most_common. split.
  - rewrite length_map, length_take.
    assert (length (drop 30 (sort_desc (Counter (filtered_words text)))) <> 0)%nat
      by (intros H0; apply length_zero_iff_nil in H0; rewrite H0 in Hitem;
          inversion Hitem).
    rewrite length_drop in H. lia.
  - apply Forall_forall. intros e He.
    apply list_elem_of_In, in_map_iff in He as (x & <- & Hx). simpl.
    apply list_elem_of_In in Hx.
    pose proof (StronglySorted_app_1_elem_of _ _ _ _ _ Hs Hx Hitem) as Hb.
    unfold item_before in Hb. simpl in Hb. lia.
Qed.

Lemma extract_keywords_nil `{WN : WordNet} `{SO : SetOrder}
    (text : string) :
  (extract_keywords text = [] <-> filtered_words text = []) /\
  (clean_text text = "" -> extract_keywords text = []).
Proof.
  assert (H1 : extract_keywords text = [] <-> filtered_words text = []).
  { split.
    - intros He. destruct (filtered_words text) as [|w l] eqn:Hf;
        [reflexivity |].
      exfalso. assert (Hw : w ∈ filtered_words text) by (rewrite Hf; left).
      assert (Hnot : w ∉ map keyword (extract_keywords text))
        by (rewrite He; intros H; inversion H).
      rewrite extract_keywords_keys in Hnot. unfold most_common in Hnot.
      pose proof (counter_has _ w Hw) as Hitem.
      rewrite <- sort_desc_perm in Hitem.
      rewrite extract_keywords_eq in He. unfold most_common in He.
      apply map_eq_nil in He.
      destruct (sort_desc (Counter (filtered_words text))) as [|x l'];
        [inversion Hitem | discriminate].
    - intros Hf. rewrite extract_keywords_eq, Hf. reflexivity. }
  split; [exact H1 |]. intros Hc. apply H1.
  unfold filtered_words. rewrite Hc. reflexivity.
Qed.

(** X13.  The result is empty exactly when no word of the text is
    counted; a text of white space only gives the empty result. *)
Theorem extract_keywords_empty `{WN : WordNet} `{SO : SetOrder}
    (text : string) :
  (extract_keywords text = [] <-> filtered_words text = []) /\
  (clean_text text = "" -> extract_keywords text = []).
Proof. exact (extract_keywords_nil text). Qed.

(** X14.  The number of entries is the number of distinct counted words,
    cut at 30; when there are at most 30 of them, each is a keyword. *)
Theorem extract_keywords_complete `{WN : WordNet} `{SO : SetOrder}
    (text : string) :
  length (extract_keywords text) =
    Nat.min 30 (length (first_seen (filtered_words text))) /\
  ((length (first_seen (filtered_words text)) <= 30)%nat ->
   map keyword (extract_keywords text) ≡ₚ first_seen (filtered_words text)).
Proof.
  split.
  - rewrite extract_keywords_eq, length_map. unfold most_common.
    rewrite length_take, (Permutation_length (sort_desc_perm _)).
    now rewrite <- (counter_keys (filtered_words text)), length_map.
  - intros Hle. rewrite extract_keywords_keys. unfold most_common.
    rewrite take_ge.
    + rewrite <- (counter_keys (filtered_words text)).
      apply Permutation_map, sort_desc_perm.
    + rewrite (Permutation_length (sort_desc_perm _)).
      now rewrite <- (counter_keys (filtered_words text)), length_map in Hle.
Qed.


Lemma extract_keywords_keeps_top_witness :
  let text :=
    "alpha bravo charlie delta echo foxtrot golf hotel india juliet kilo lima mike november oscar papa quebec romeo sierra tango uniform victor whiskey xray yankee zulu amber birch cedar dune elm" in
  ("elm" ∈ filtered_words text /\
   "elm" ∉ map keyword (@extract_keywords DummyWordnet ElementsOrder text)) /\
  length (@extract_keywords DummyWordnet ElementsOrder text) = 30%nat.
Proof.
  intros text.
  assert (Hin : bool_decide ("elm" ∈ filtered_words text) = true)
    by (vm_compute; reflexivity).
  apply bool_decide_eq_true in Hin.
  assert (Hout : bool_decide
                   ("elm" ∉ map keyword
                      (@extract_keywords DummyWordnet ElementsOrder text))
                 = true)
    by (vm_compute; reflexivity).
  apply bool_decide_eq_true in Hout.
  split; [split; assumption |].
  exact (proj1 (@extract_keywords_keeps_top DummyWordnet ElementsOrder
                  text "elm" Hin Hout)).
Defined.

Lemma extract_keywords_complete_witness :
  let text := "Python and SQL, python or Rust" in
  (length (first_seen (filtered_words text)) <= 30)%nat /\
  map keyword (@extract_keywords DummyWordnet ElementsOrder text)
    ≡ₚ first_seen (filtered_words text).
Proof.
  intros text.
  assert (Hle : (length (first_seen (filtered_words text)) <= 30)%nat)
    by (vm_compute; lia).
  split; [exact Hle |].
  exact (proj2 (@extract_keywords_complete DummyWordnet ElementsOrder text)
               Hle).
Defined.

(** ** The word scanner finds every word *)

Section ScannerComplete.






Variables w post : string.

Hypothesis w_long : (3 <= String.length w)%nat.
Hypothesis w_letters : forallb is_alpha (chars w) = true.
Hypothesis post_free : word_after post = false.


End ScannerComplete.


(** ** More on [categorize_keyword] *)

Section CategorizeCase.











End CategorizeCase.


Section CategorizeTerms.

Lemma rep_any (m : ascii -> bool) (k : matcher) :
  (forall p s, is_Some (k p s)) ->
  forall s p, is_Some (rep m k 0 p s).
Proof.
  intros Hk. induction s as [|c s IH]; intros p; simpl; [apply Hk |].
  destruct (m c); [| apply Hk].
  destruct (IH (Some c)) as [j ->]. eauto.
Qed.

Lemma rep_skip (m : ascii -> bool) (k : matcher) (pre s : string) :
  forallb m (chars pre) = true ->
  forall p, is_Some (k (last_from p pre) s) ->
            is_Some (rep m k 0 p (pre +:+ s)).
Proof.
  intros Hall. induction pre as [|c pre IH]; intros p Hk.
  - rewrite append_nil_l. simpl in Hk.
    destruct s as [|c s]; simpl; [exact Hk |].
    destruct (m c); [| exact Hk].
    destruct (rep m k 0 (Some c) s); eauto.
  - simpl in Hall. apply andb_true_iff in Hall as [Hc Hpre].
    rewrite append_cons. cbn [rep Nat.pred]. rewrite Hc.
    destruct (IH Hpre (Some c) Hk) as [j ->]. eauto.
Qed.

Lemma lits_match (rest : list item) (term : string) :
  forall (x s : string) (p : option ascii),
  lower x = lower term ->
  (forall q, is_Some (match_items true rest q s)) ->
  is_Some (match_items true
             (map (fun c => One (Lit c)) (chars term) ++ rest) p (x +:+ s)).
Proof.
  induction term as [|c term IH]; intros x s p Hx Hrest.
  - destruct x; [| discriminate]. simpl. apply Hrest.
  - destruct x as [|y x]; [discriminate |]. simpl in Hx.
    injection Hx as Hy Hx. rewrite append_cons. cbn [chars map app match_items].
    cbn [atom_matches]. rewrite Hy, Ascii.eqb_refl.
    destruct (IH x s (Some y) Hx Hrest) as [j ->]. simpl. eauto.
Qed.

(** A subject that holds a term, in any case, after a stretch without a
    line feed matches [.*term.*]. *)
Lemma term_items_match (term pre x post : string) :
  no_newline pre = true -> lower x = lower term ->
  is_Some (match_items true (term_items term) None (pre +:+ x +:+ post)).
Proof.
  intros Hpre Hx. unfold term_items. cbn [match_items].
  apply rep_skip; [exact Hpre |].
  apply lits_match; [exact Hx |]. intros q. cbn [match_items].
  apply rep_any. intros p s. simpl. eauto.
Qed.

Lemma technical_terms_compile :
  Forall (fun term =>
            (".*" +:+ term +:+ ".*") ∈ technical_patterns /\
            compile (".*" +:+ term +:+ ".*") = Some (term_items term))
         technical_terms.
Proof.
  repeat constructor;
    apply (bool_decide_unpack _); vm_compute; exact I.
Qed.

End CategorizeTerms.

(** X18.  A word that holds one of the plain technical terms, in any case
    and anywhere on its first line, is a technical skill whatever else it
    holds. *)
Theorem categorize_keyword_term (term pre x post : string) :
  term ∈ technical_terms -> no_newline pre = true -> lower x = lower term ->
  categorize_keyword (pre +:+ x +:+ post) = Technical_Skills.
Proof.
  intros Hterm Hpre Hx.
  pose proof technical_terms_compile as Hall. rewrite Forall_forall in Hall.
  destruct (Hall term Hterm) as [Hpat Hcomp].
  assert (Hm : any_match technical_patterns (pre +:+ x +:+ post) = true).
  { unfold any_match. apply existsb_exists.
    exists (".*" +:+ term +:+ ".*"). split; [now apply list_elem_of_In |].
    unfold re_match. rewrite Hcomp. apply bool_decide_eq_true.
    now apply term_items_match. }
  unfold categorize_keyword. now rewrite Hm.
Qed.

Lemma categorize_keyword_term_witness :
  ("ai" ∈ technical_terms /\ no_newline "m" = true /\
   lower "AI" = lower "ai") /\
  categorize_keyword "mAIntain" = Technical_Skills.
Proof.
  assert (Hterm : "ai" ∈ technical_terms)
    by (apply (bool_decide_unpack _); vm_compute; exact I).
  split; [split; [exact Hterm | split; reflexivity] |].
  exact (categorize_keyword_term "ai" "m" "AI" "ntain" Hterm eq_refl eq_refl).
Defined.

(** ** More on [get_synonyms] *)

Section SynonymsMore.

Context `{WN : WordNet} `{SO : SetOrder}.

Variable word : string.

Local Abbreviation offered := (offered_as word).

Lemma add_lemma_elem (X : gset string) (name s : string) :
  s ∈ add_lemma word X name <-> s ∈ X \/ offered name s.
Proof.
  unfold add_lemma, offered_as, acceptable_synonym.
  destruct (negb (String.eqb (replace_char "_" " " name) word) &&
            (length (split (replace_char "_" " " name)) =? 1)%nat) eqn:Hc.
  - apply andb_true_iff in Hc as [Hne Hlen].
    apply negb_true_iff, String.eqb_neq in Hne. apply Nat.eqb_eq in Hlen.
    rewrite elem_of_union, elem_of_singleton. split.
    + intros [-> | H]; [right | left]; auto.
    + intros [H | [-> _]]; auto.
  - split; [auto |]. intros [H | [-> [Hne Hlen]]]; [exact H |].
    apply andb_false_iff in Hc as [Hc | Hc].
    + apply negb_false_iff, String.eqb_eq in Hc. congruence.
    + apply Nat.eqb_neq in Hc. congruence.
Qed.

Lemma add_lemmas_elem (names : list string) (X : gset string) (s : string) :
  s ∈ fold_left (add_lemma word) names X <->
  s ∈ X \/ exists name, name ∈ names /\ offered name s.
Proof.
  revert X. induction names as [|name names IH]; intros X; simpl.
  - split; [auto |]. intros [H | (name & Hin & _)]; [exact H | inversion Hin].
  - rewrite IH, add_lemma_elem. split.
    + intros [[H | H] | (n & Hin & H)]; [auto | |].
      * right. exists name. split; [left | exact H].
      * right. exists n. split; [now right | exact H].
    + intros [H | (n & Hin & H)]; [auto |].
      apply elem_of_cons in Hin as [-> | Hin]; [auto |].
      right. eauto.
Qed.

Lemma collect_elem (syns : list synset) (X Y : gset string) (s : string) :
  collect_synonyms word X syns = Some Y ->
  s ∈ Y <->
  s ∈ X \/
  exists syn names name,
    syn ∈ syns /\ wn_lemma_names syn = Some names /\ name ∈ names /\
    offered name s.
Proof.
  revert X. induction syns as [|syn syns IH]; intros X; simpl.
  - intros [= <-]. split; [auto |].
    intros [H | (syn & _ & _ & Hin & _)]; [exact H | inversion Hin].
  - destruct (wn_lemma_names syn) as [names|] eqn:Hn; [| discriminate].
    intros Hc. rewrite (IH _ Hc), add_lemmas_elem. split.
    + intros [[H | (name & Hin & H)] | (syn' & names' & name & Hs & Hn' & Hin & H)].
      * auto.
      * right. exists syn, names, name. split; [left | auto].
      * right. exists syn', names', name. split; [now right | auto].
    + intros [H | (syn' & names' & name & Hs & Hn' & Hin & H)]; [auto |].
      apply elem_of_cons in Hs as [-> | Hs].
      * left. right. exists name. split; [congruence | exact H].
      * right. exists syn', names', name. auto.
Qed.

Lemma replace_char_absent (s : string) : "_"%char ∉ chars (replace_char "_" " " s).
Proof.
  induction s as [|c s IH]; simpl; [intros H; inversion H |].
  intros H. apply elem_of_cons in H as [H | H]; [| now apply IH].
  destruct (Ascii.eqb c "_") eqn:Hc; [discriminate |].
  apply Ascii.eqb_neq in Hc. congruence.
Qed.

(** The list returned by a lookup that does not raise. *)
Lemma get_synonyms_try_elem (l : list string) :
  get_synonyms_try word = Some l ->
  exists X : gset string,
    l = take 3 (set_to_list X) /\ forall s, s ∈ X <-> is_candidate word s.
Proof.
  unfold get_synonyms_try, is_candidate.
  destruct (wn_synsets word) as [syns|]; [| discriminate].
  destruct (collect_synonyms word ∅ syns) as [Y|] eqn:Hc; [| discriminate].
  intros [= <-]. exists Y. split; [reflexivity |]. intros s.
  rewrite (collect_elem syns ∅ Y s Hc). unfold offered_as. split.
  - intros [H | (syn & names & name & Hs & Hn & Hin & Hr & Ha)].
    + exfalso. revert H. apply not_elem_of_empty.
    + exists syns, syn, names, name. auto 10.
  - intros (syns' & syn & names & name & [= <-] & Hs & Hn & Hin & Hr & Ha).
    right. exists syn, names, name. auto 10.
Qed.

End SynonymsMore.

(** X19.  Every synonym returned is offered by the dictionary for the
    word: it is the name of a lemma of one of the word's synsets with
    spaces for underscores, and so it holds no underscore. *)
Theorem get_synonyms_source `{WN : WordNet} `{SO : SetOrder} (word : string) :
  Forall (fun s => is_candidate word s /\ "_"%char ∉ chars s)
         (get_synonyms word).
Proof.
  unfold get_synonyms.
  destruct (get_synonyms_try word) as [l|] eqn:Htry; [| constructor].
  apply get_synonyms_try_elem in Htry as (X & -> & HX).
  apply Forall_forall. intros s Hs.
  apply (subseteq_take 3), set_to_list_elem, HX in Hs.
  split; [exact Hs |].
  destruct Hs as (_ & _ & _ & name & _ & _ & _ & _ & -> & _).
  apply replace_char_absent.
Qed.

(** X20.  Nothing the dictionary offers is dropped except by the cut at
    three: when the lookup does not raise and fewer than three synonyms
    are returned, everything offered is among them. *)
Theorem get_synonyms_all `{WN : WordNet} `{SO : SetOrder} (word s : string) :
  ~ lookup_fails word -> (length (get_synonyms word) < 3)%nat ->
  is_candidate word s -> s ∈ get_synonyms word.
Proof.
  intros Hok Hlen Hs. unfold get_synonyms in *.
  destruct (get_synonyms_try word) as [l|] eqn:Htry.
  - apply get_synonyms_try_elem in Htry as (X & -> & HX).
    rewrite length_take in Hlen. rewrite take_ge; [| lia].
    now apply set_to_list_elem, HX.
  - exfalso. now apply Hok, get_synonyms_try_raises.
Qed.

Lemma get_synonyms_all_witness :
  (~ @lookup_fails SmallWordnet "resume" /\
   (length (@get_synonyms SmallWordnet ElementsOrder "resume") < 3)%nat /\
   @is_candidate SmallWordnet "resume" "CV") /\
  "CV" ∈ @get_synonyms SmallWordnet ElementsOrder "resume".
Proof.
  assert (Hok : ~ @lookup_fails SmallWordnet "resume").
  { intros [H | (syns & syn & [= <-] & Hin & Hn)]; [discriminate |].
    discriminate. }
  assert (Hlen : (length (@get_synonyms SmallWordnet ElementsOrder "resume")
                  < 3)%nat) by (vm_compute; lia).
  assert (Hc : @is_candidate SmallWordnet "resume" "CV").
  { exists [["resume"; "curriculum_vitae"; "CV"]],
      ["resume"; "curriculum_vitae"; "CV"],
      ["resume"; "curriculum_vitae"; "CV"], "CV".
    repeat split; try reflexivity; try discriminate.
    - left.
    - right. right. left. }
  split; [auto |].
  exact (@get_synonyms_all SmallWordnet ElementsOrder "resume" "CV"
           Hok Hlen Hc).
Defined.

(** ** More on [generate_improvement_suggestions] *)

Section SuggestionsMore.

Variable missing : list missing_kw.


Lemma named_categories_length (cs : list string) :
  NoDup cs ->
  (length (flat_map (fun cat => suggestion_for cat missing) cs) <= 3)%nat.
Proof.
  intros Hnd.
  assert (Hle : (length (flat_map (fun cat => suggestion_for cat missing) cs)
                 <= length (List.filter
                              (fun c => String.eqb c "Technical Skills" ||
                                        String.eqb c "Tools & Technologies" ||
                                        String.eqb c "Soft Skills") cs))%nat).
  { clear Hnd. induction cs as [|c cs IH]; simpl; [lia |].
    rewrite length_app. unfold suggestion_for at 1.
    destruct (String.eqb c "Technical Skills"); simpl; [lia |].
    destruct (String.eqb c "Tools & Technologies"); simpl; [lia |].
    destruct (String.eqb c "Soft Skills"); simpl; lia. }
  etransitivity; [exact Hle |].
  change 3%nat with (length ["Technical Skills"; "Tools & Technologies";
                             "Soft Skills"]).
  apply submseteq_length, NoDup_submseteq.
  - apply (sublist_NoDup _ cs); [exact Hnd |].
    clear. induction cs as [|c cs IH]; simpl; [constructor |].
    destruct (_ || _); [now apply sublist_skip | now apply sublist_cons].
  - intros c Hc. apply list_elem_of_In, filter_In in Hc as [_ Hc].
    apply orb_true_iff in Hc as [Hc | Hc];
      [apply orb_true_iff in Hc as [Hc | Hc] |];
      apply String.eqb_eq in Hc; subst c.
    + left.
    + right. left.
    + right. right. left.
Qed.

Lemma suggestion_for_elem (c s : string) :
  s ∈ suggestion_for c missing ->
  (c = Technical_Skills /\ exists names, s = technical_suggestion names) \/
  (c = Tools_Technologies /\ exists names, s = tools_suggestion names) \/
  (c = Soft_Skills /\ exists names, s = soft_suggestion names).
Proof.
  unfold suggestion_for.
  destruct (String.eqb c "Technical Skills") eqn:H1.
  { apply String.eqb_eq in H1. intros Hs.
    apply list_elem_of_singleton in Hs. left. eauto. }
  destruct (String.eqb c "Tools & Technologies") eqn:H2.
  { apply String.eqb_eq in H2. intros Hs.
    apply list_elem_of_singleton in Hs. right. left. eauto. }
  destruct (String.eqb c "Soft Skills") eqn:H3.
  { apply String.eqb_eq in H3. intros Hs.
    apply list_elem_of_singleton in Hs. right. right. eauto. }
  intros Hs. inversion Hs.
Qed.

Lemma category_suggestions_elem (s : string) :
  s ∈ category_suggestions missing <->
  exists c, c ∈ map m_category missing /\ s ∈ suggestion_for c missing.
Proof.
  unfold category_suggestions. split.
  - intros Hs. apply list_elem_of_In, in_flat_map in Hs as (c & Hc & Hs).
    exists c. split; [now apply first_seen_elem, list_elem_of_In |].
    now apply list_elem_of_In.
  - intros (c & Hc & Hs). apply list_elem_of_In, in_flat_map. exists c.
    split; [now apply list_elem_of_In, first_seen_elem |].
    now apply list_elem_of_In.
Qed.

End SuggestionsMore.

Ltac templates_differ :=
  match goal with
  | H : _ = _ |- _ =>
      unfold technical_suggestion, tools_suggestion, soft_suggestion,
        major_revision, moderate_improvements, good_match,
        severity_suggestion in H;
      repeat match type of H with
             | context [if ?b then _ else _] => destruct b
             end;
      cbv [String.append] in H; discriminate H
  end.

Lemma generate_eq (missing : list missing_kw) (found : list found_kw) :
  generate_improvement_suggestions missing found =
  category_suggestions missing ++ [severity_suggestion (length missing)].
Proof.
  unfold generate_improvement_suggestions, category_suggestions.
  rewrite group_by_category_spec. f_equal.
  apply flat_map_map_on. intros c Hc.
  apply category_suggestion_spec. now apply first_seen_elem.
Qed.

(** X21.  There are at most four suggestions, and a suggestion for a
    category is made exactly when a keyword of that category is missing. *)
Theorem generate_improvement_suggestions_categories
    (missing : list missing_kw) (found : list found_kw) :
  (length (generate_improvement_suggestions missing found) <= 4)%nat /\
  ((exists names, technical_suggestion names ∈
                    generate_improvement_suggestions missing found) <->
   Technical_Skills ∈ map m_category missing) /\
  ((exists names, tools_suggestion names ∈
                    generate_improvement_suggestions missing found) <->
   Tools_Technologies ∈ map m_category missing) /\
  ((exists names, soft_suggestion names ∈
                    generate_improvement_suggestions missing found) <->
   Soft_Skills ∈ map m_category missing).
Proof.
  rewrite generate_eq. split.
  { rewrite length_app. simpl. unfold category_suggestions.
    pose proof (named_categories_length missing _
                  (first_seen_NoDup (map m_category missing))). lia. }
  assert (Hin : forall c s, c ∈ map m_category missing ->
                  s ∈ suggestion_for c missing ->
                  s ∈ category_suggestions missing ++
                      [severity_suggestion (length missing)]).
  { intros c s Hc Hs. apply elem_of_app. left.
    apply category_suggestions_elem. eauto. }
  repeat split.
  - intros (names & Hs). apply elem_of_app in Hs as [Hs | Hs].
    + apply category_suggestions_elem in Hs as (c & Hc & Hs).
      apply suggestion_for_elem in Hs
        as [[-> _] | [[_ [n He]] | [_ [n He]]]];
        [exact Hc | templates_differ | templates_differ].
    + apply list_elem_of_singleton in Hs. templates_differ.
  - intros Hc. eexists. apply (Hin Technical_Skills); [exact Hc | left].
  - intros (names & Hs). apply elem_of_app in Hs as [Hs | Hs].
    + apply category_suggestions_elem in Hs as (c & Hc & Hs).
      apply suggestion_for_elem in Hs
        as [[_ [n He]] | [[-> _] | [_ [n He]]]];
        [templates_differ | exact Hc | templates_differ].
    + apply list_elem_of_singleton in Hs. templates_differ.
  - intros Hc. eexists. apply (Hin Tools_Technologies); [exact Hc | left].
  - intros (names & Hs). apply elem_of_app in Hs as [Hs | Hs].
    + apply category_suggestions_elem in Hs as (c & Hc & Hs).
      apply suggestion_for_elem in Hs
        as [[_ [n He]] | [[_ [n He]] | [-> _]]];
        [templates_differ | templates_differ | exact Hc].
    + apply list_elem_of_singleton in Hs. templates_differ.
  - intros Hc. eexists. apply (Hin Soft_Skills); [exact Hc | left].
Qed.

(** ** The chart data of [main] *)

Section CategoryCounts.

Lemma dict_step (k : string) (d : list (string * nat)) :
  dict_set k (dict_get d k 0 + 1) d = counter_incr k d.
Proof.
  induction d as [|[k' v] d IH]; simpl; [reflexivity |].
  destruct (String.eqb k' k); [f_equal; f_equal; lia |].
  now rewrite IH.
Qed.

Lemma category_counts_counter (missing : list missing_kw) :
  category_counts missing = Counter (map m_category missing).
Proof.
  unfold category_counts, Counter.
  generalize (@nil (string * nat)) as d.
  induction missing as [|kw missing IH]; intros d; simpl; [reflexivity |].
  now rewrite dict_step, IH.
Qed.

Lemma occurrences_missing_in (c : string) (missing : list missing_kw) :
  occurrences c (map m_category missing) = length (missing_in c missing).
Proof.
  unfold occurrences, missing_in.
  induction missing as [|kw missing IH]; simpl; [reflexivity |].
  rewrite (String.eqb_sym c (m_category kw)).
  destruct (String.eqb (m_category kw) c); simpl; now rewrite IH.
Qed.

Lemma counter_incr_sum (w : string) (c : list (string * nat)) :
  list_sum (map snd (counter_incr w c)) = S (list_sum (map snd c)).
Proof.
  induction c as [|[k n] c IH]; simpl; [reflexivity |].
  destruct (String.eqb k w); simpl; [reflexivity |]. rewrite IH. lia.
Qed.

Lemma Counter_sum (l : list string) :
  list_sum (map snd (Counter l)) = length l.
Proof.
  unfold Counter. induction l as [|w l IH] using rev_ind; [reflexivity |].
  rewrite fold_left_app. simpl. rewrite counter_incr_sum, IH, length_app.
  simpl. lia.
Qed.

End CategoryCounts.

(** X22.  The bar chart of missing keywords agrees with the grouping by
    category: it lists the same categories in the same order, each with
    the size of its group, and its bars add up to the number of missing
    keywords. *)
Theorem category_counts_groups (missing : list missing_kw) :
  category_counts missing =
    map (fun g => (fst g, length (snd g))) (group_by_category missing) /\
  list_sum (map snd (category_counts missing)) = length missing.
Proof.
  rewrite category_counts_counter. split.
  - rewrite Counter_spec, group_by_category_spec, map_map.
    apply map_ext. intros c. simpl. now rewrite occurrences_missing_in.
  - now rewrite Counter_sum, length_map.
Qed.

(** ** [extract_text_from_file] *)

Section FileType.

Lemma split_on_plain (sep : ascii) (ext cur : string) :
  sep ∉ chars ext -> split_on sep cur ext = [cur +:+ ext].
Proof.
  revert cur. induction ext as [|c ext IH]; intros cur Hno; simpl.
  - now rewrite append_nil_r.
  - destruct (Ascii.eqb c sep) eqn:Hc.
    + apply Ascii.eqb_eq in Hc. subst c. exfalso. apply Hno. left.
    + rewrite IH; [now rewrite append_assoc |].
      intros Hin. apply Hno. now right.
Qed.

Lemma split_on_nonempty (sep : ascii) (s cur : string) :
  split_on sep cur s <> [].
Proof.
  revert cur. induction s as [|c s IH]; intros cur; simpl; [discriminate |].
  destruct (Ascii.eqb c sep); [discriminate | apply IH].
Qed.

Lemma last_split_on (sep : ascii) (pre ext cur : string) :
  List.last (split_on sep cur (pre +:+ String sep ext)) "" =
  List.last (split_on sep "" ext) "".
Proof.
  revert cur. induction pre as [|c pre IH]; intros cur.
  - rewrite append_nil_l. simpl. rewrite Ascii.eqb_refl.
    pose proof (split_on_nonempty sep ext "") as Hne.
    destruct (split_on sep "" ext); [congruence | reflexivity].
  - rewrite append_cons. cbn [split_on]. destruct (Ascii.eqb c sep).
    + pose proof (split_on_nonempty sep (pre +:+ String sep ext) "") as Hne.
      destruct (split_on sep "" (pre +:+ String sep ext)) eqn:Hs;
        [congruence |].
      rewrite <- (IH ""), Hs. reflexivity.
    + apply IH.
Qed.

End FileType.

(** X23.  The type of a file is what follows the last dot of its name, in
    lower case, and the whole name when it has no dot. *)
Theorem file_type_of_spec (name pre ext : string) :
  "."%char ∉ chars ext ->
  file_type_of (pre +:+ "." +:+ ext) = lower ext /\
  ("."%char ∉ chars name -> file_type_of name = lower name).
Proof.
  intros Hext. unfold file_type_of. split.
  - change ("." +:+ ext) with (String "." ext).
    rewrite last_split_on, (split_on_plain _ _ _ Hext). reflexivity.
  - intros Hname. rewrite (split_on_plain _ _ _ Hname). reflexivity.
Qed.

Lemma file_type_of_spec_witness :
  ("."%char ∉ chars "PDF") /\ file_type_of "my.resume.PDF" = "pdf".
Proof.
  assert (Hext : "."%char ∉ chars "PDF").
  { intros H. repeat (apply elem_of_cons in H as [H | H]; [discriminate |]).
    inversion H. }
  split; [exact Hext |].
  exact (proj1 (file_type_of_spec "" "my.resume" "PDF" Hext)).
Defined.

Lemma extract_text_errors `{D : Decoders}
    (uploaded : option uploaded_file) :
  (snd (extract_text_from_file uploaded) <> None ->
   fst (extract_text_from_file uploaded) = "") /\
  extract_text_from_file None = ("", None) /\
  forall (f : uploaded_file) (t : string),
    snd (extract_text_from_file (Some f)) = Some (UnsupportedType t) <->
    t = file_type_of (file_name f) /\ t ∉ ["txt"; "docx"; "pdf"].
Proof.
  split; [| split; [reflexivity |]].
  - destruct uploaded as [f|]; [| reflexivity]. unfold extract_text_from_file.
    repeat match goal with
           | |- context [if ?b then _ else _] => destruct b
           | |- context [match ?o with Some _ => _ | None => _ end] =>
               destruct o
           end; simpl; congruence.
  - intros f t. unfold extract_text_from_file.
    destruct (String.eqb (file_type_of (file_name f)) "txt") eqn:H1;
      [| destruct (String.eqb (file_type_of (file_name f)) "docx") eqn:H2;
         [| destruct (String.eqb (file_type_of (file_name f)) "pdf") eqn:H3]].
    + apply String.eqb_eq in H1. split.
      * destruct (decode_utf8 (file_value f)); discriminate.
      * intros [-> Hno]. exfalso. apply Hno. rewrite H1. left.
    + apply String.eqb_eq in H2. split.
      * destruct (docx_paragraphs (file_value f)); discriminate.
      * intros [-> Hno]. exfalso. apply Hno. rewrite H2. right. left.
    + apply String.eqb_eq in H3. split.
      * destruct (pdf_page_texts (file_value f)); discriminate.
      * intros [-> Hno]. exfalso. apply Hno. rewrite H3. right. right. left.
    + apply String.eqb_neq in H1, H2, H3. simpl. split.
      * intros [= <-]. split; [reflexivity |]. intros Hin.
        repeat (apply elem_of_cons in Hin as [Hin | Hin]; [congruence |]).
        inversion Hin.
      * intros [-> _]. reflexivity.
Qed.

(** X24.  [extract_text_from_file] returns the empty text whenever it
    shows an error and for a missing file; it reports an unsupported type
    exactly when the type of the file is none of txt, docx and pdf, and
    then names that type. *)
Theorem extract_text_from_file_errors `{D : Decoders}
    (uploaded : option uploaded_file) :
  (snd (extract_text_from_file uploaded) <> None ->
   fst (extract_text_from_file uploaded) = "") /\
  extract_text_from_file None = ("", None) /\
  forall (f : uploaded_file) (t : string),
    snd (extract_text_from_file (Some f)) = Some (UnsupportedType t) <->
    t = file_type_of (file_name f) /\ t ∉ ["txt"; "docx"; "pdf"].
Proof. exact (extract_text_errors uploaded). Qed.

(** ** The analysis of [main] *)

Section Analysis.

Context `{WN : WordNet} `{SO : SetOrder}.






Lemma substring_nil (a : string) : substring a "" -> a = "".
Proof.
  intros (pre & post & H). symmetry in H.
  apply append_eq_nil in H as [_ H]. now apply append_eq_nil in H as [H _].
Qed.

Lemma substring_trans (a b c : string) :
  substring a b -> substring b c -> substring a c.
Proof.
  intros (p1 & q1 & ->) (p2 & q2 & ->). exists (p2 +:+ p1), (q1 +:+ q2).
  now rewrite !append_assoc.
Qed.

Lemma is_blank_false (text : string) :
  clean_text text <> "" -> is_blank text = false.
Proof.
  intros Hne. destruct (is_blank text) eqn:Hb; [| reflexivity].
  apply (blank_text text) in Hb. congruence.
Qed.


End Analysis.


(** X26.  When the cleaned posting occurs in the cleaned resume, as it
    does when the two files are the same, and the posting has a counted
    word, the report shows a score of 100 with nothing missing, the message
    of an excellent match and the good-match suggestion alone. *)
Theorem analyze_texts_contained `{WN : WordNet} `{SO : SetOrder}
    (resume_text job_text : string) :
  substring (clean_text job_text) (clean_text resume_text) ->
  filtered_words job_text <> [] ->
  exists results : match_result,
    analyze_texts resume_text job_text = Report results [good_match] /\
    (match_percentage results == 100)%Q /\
    missing_keywords results = [] /\
    score_message (match_percentage results) = "Excellent match!".
Proof.
  intros Hsub Hf.
  assert (Hk : extract_keywords job_text <> []).
  { intros H. now apply (extract_keywords_nil job_text) in H. }
  assert (Hjc : clean_text job_text <> "").
  { intros H. apply Hk. now apply (extract_keywords_nil job_text). }
  assert (Hrc : clean_text resume_text <> "").
  { intros H. rewrite H in Hsub. now apply substring_nil in Hsub. }
  assert (Hall : Forall (fun kw => substring (keyword kw)
                                     (clean_text resume_text))
                   (extract_keywords job_text)).
  { apply Forall_forall. intros e He.
    apply extract_keywords_word in He as (_ & _ & _ & _ & _ & _ & Hs).
    exact (substring_trans _ _ _ Hs Hsub). }
  destruct (all_found_result resume_text _ Hk Hall)
    as (r & Hr & Hp & Hm & _).
  exists r. unfold analyze_texts.
  rewrite (is_blank_false _ Hrc), (is_blank_false _ Hjc), Hr, Hm.
  destruct (extract_keywords job_text); [congruence |]. simpl.
  split; [reflexivity |]. split; [exact Hp |]. split; [reflexivity |].
  unfold score_message.
  assert (H80 : Qle_bool 80 (match_percentage r) = true).
  { apply Qle_bool_iff. rewrite Hp. discriminate. }
  now rewrite H80.
Qed.

Lemma analyze_texts_contained_witness :
  let text := "Python developer with SQL" in
  (substring (clean_text text) (clean_text text) /\
   filtered_words text <> []) /\
  exists results : match_result,
    @analyze_texts DummyWordnet ElementsOrder text text =
      Report results [good_match].
Proof.
  intros text.
  assert (Hs : substring (clean_text text) (clean_text text))
    by (exists "", ""; now rewrite append_nil_r).
  assert (Hf : filtered_words text <> []) by (vm_compute; discriminate).
  split; [split; assumption |].
  destruct (@analyze_texts_contained DummyWordnet ElementsOrder text text
              Hs Hf) as (r & Hr & _).
  exists r. exact Hr.
Defined.

(** X27.  A resume file that cannot be read, or is of an unsupported
    type, is reported as an empty resume, whatever the posting; without
    both files nothing is analysed. *)
Theorem analyze_unreadable_resume `{D : Decoders} `{WN : WordNet}
    `{SO : SetOrder} (resume_file job_file : uploaded_file) :
  snd (extract_text_from_file (Some resume_file)) <> None ->
  analyze (Some resume_file) (Some job_file) = ResumeEmpty /\
  analyze None (Some job_file) = BothFilesNeeded /\
  analyze (Some resume_file) None = BothFilesNeeded.
Proof.
  intros Herr. split; [| split; reflexivity].
  unfold analyze.
  rewrite (proj1 (extract_text_errors (Some resume_file)) Herr).
  reflexivity.
Qed.

Lemma analyze_unreadable_resume_witness :
  let resume := UploadedFile "cv.pdf" "Python developer" in
  let posting := UploadedFile "job.txt" "Python developer wanted" in
  snd (@extract_text_from_file PlainDecoders (Some resume)) <> None /\
  @analyze PlainDecoders DummyWordnet ElementsOrder
    (Some resume) (Some posting) = ResumeEmpty.
Proof.
  intros resume posting.
  assert (Herr : snd (@extract_text_from_file PlainDecoders (Some resume))
                 <> None) by (vm_compute; discriminate).
  split; [exact Herr |].
  exact (proj1 (@analyze_unreadable_resume PlainDecoders DummyWordnet
                  ElementsOrder resume posting Herr)).
Defined.

(** ** The analysis without the dictionary *)

Section Degraded.

Lemma classify_no_synonyms (rc : string) (kw : kw_info) :
  synonyms kw = [] -> is_synonym (classify rc kw) = false.
Proof.
  intros Hs. unfold classify, next_synonym. rewrite Hs. simpl.
  now destruct (str_in (keyword kw) rc).
Qed.

Lemma no_synonym_statuses (rc : string) (kws : list kw_info) :
  Forall (fun kw => synonyms kw = []) kws ->
  List.filter is_synonym (statuses rc kws) = [] /\
  Forall (fun f => f_match_type f = "exact" /\ f_matched_synonym f = None)
         (concat (zip_with found_entry kws (statuses rc kws))).
Proof.
  unfold statuses. induction 1 as [|kw kws Hkw _ [IH1 IH2]]; simpl.
  - split; constructor.
  - pose proof (classify_no_synonyms rc kw Hkw) as Hc.
    destruct (classify rc kw); simpl in *; try discriminate.
    + split; [exact IH1 |]. constructor; [split; reflexivity | exact IH2].
    + split; [exact IH1 | exact IH2].
Qed.

End Degraded.

(** X28.  With the stand-in dictionary, used when the language data
    cannot be loaded, no keyword has a synonym, so the match has no synonym
    matches: every found entry is an exact match. *)
Theorem analysis_without_dictionary `{SO : SetOrder}
    (resume_text job_text : string) :
  Forall (fun e => synonyms e = [])
         (@extract_keywords DummyWordnet SO job_text) /\
  exists r : match_result,
    calculate_match resume_text (@extract_keywords DummyWordnet SO job_text)
      = Some r /\
    synonym_matches r = 0%nat /\
    exact_matches r = length (found_keywords r) /\
    Forall (fun f => f_match_type f = "exact" /\ f_matched_synonym f = None)
           (found_keywords r).
Proof.
  assert (Hsyn : Forall (fun e => synonyms e = [])
                   (@extract_keywords DummyWordnet SO job_text)).
  { apply Forall_forall. intros e He.
    apply extract_keywords_word in He as (_ & _ & -> & _).
    apply get_synonyms_dummy. }
  split; [exact Hsyn |]. rewrite calculate_match_eq. eexists.
  split; [reflexivity |]. simpl.
  destruct (no_synonym_statuses (clean_text resume_text) _ Hsyn) as [H0 Hf].
  destruct (found_entries_tally resume_text
              (@extract_keywords DummyWordnet SO job_text)) as (_ & _ & Hlen).
  rewrite H0 in *. simpl in *. split; [reflexivity |].
  split; [lia | exact Hf].
Qed.

(** X29.  In binary64, the arithmetic the program runs, the score of
    every outcome on 1 to 30 keywords lies between 0 and 100; it is 100
    when every keyword is an exact match and 0 when none is found. *)
Theorem score_binary64 (e s t : nat) :
  (1 <= t <= 30)%nat -> (e + s <= t)%nat ->
  percentage_in_range (weighted_score_binary64 e s t) = true /\
  weighted_score_binary64 t 0 t = 100%float /\
  weighted_score_binary64 0 0 t = 0%float.
Proof.
  intros Ht Hsum. split; [now apply weighted_score_binary64_range |].
  clear e s Hsum. destruct t as [|t]; [lia |].
  do 30 (destruct t as [|t]; [split; vm_compute; reflexivity |]). lia.
Qed.

Lemma score_binary64_witness :
  ((1 <= 11 <= 30)%nat /\ (1 + 1 <= 11)%nat) /\
  percentage_in_range (weighted_score_binary64 1 1 11) = true.
Proof.
  assert (Ht : (1 <= 11 <= 30)%nat) by lia.
  assert (Hs : (1 + 1 <= 11)%nat) by lia.
  split; [split; assumption |].
  exact (proj1 (score_binary64 1 1 11 Ht Hs)).
Defined.
